(** * Bag-of-words vectorisation and the Naive Bayes classifier

    A shallow embedding of [src/data_processing.py] ([build_vocab],
    [bag_of_words]) and of [src/naive_bayes.py] (the [NaiveBayes] class), with
    the properties of the specification stated over it.

    Conventions of the embedding.
    - A Python [dict] is an association list in insertion order: the order is
      observable ([enumerate(self.class_priors.items())]).
    - A raised exception is the [Err] branch of [result].
    - The entries of a bag-of-words vector are [torch.float] numbers that
      hold integers; they are kept as natural numbers, and [+= 1] stops at
      [2 ^ 24], where the next integer is no [torch.float] number.
    - A class prior is the quotient of two integers rounded to a Python
      [float] and then to a [torch.float] number; both roundings are
      computed ([Float]).
    - The other tensor entries are real numbers extended with the IEEE
      special values ([xreal]); signed zeros are not told apart.  The
      prediction methods call the kernels of torch ([torch.log], [*], [+],
      [torch.sum], [torch.softmax]) through a parameter [Kernels], so what
      is proved of them for all kernels holds whatever those round to;
      [Tensor.exact] are the kernels over the exact reals, with which the
      numeric examples are computed.  The arithmetic of
      [estimate_conditional_probabilities] is kept over the exact reals. *)

From Stdlib Require Import String NArith ZArith Lia Bool Arith List FinFun.
From Stdlib Require Import Permutation Sorted.
From Stdlib Require Import Reals Lra.
Import ListNotations.

(** ** Exceptions *)

Inductive error : Type :=
| IndexError        (* index or mask out of range *)
| KeyError          (* missing dictionary key *)
| ValueError        (* [estimate_class_posteriors], [int], index overflow *)
| RuntimeError      (* tensor shapes that do not broadcast *)
| NotTrained.       (* [Exception("Model not trained. ...")] *)

Inductive result (A : Type) : Type :=
| Ok (a : A)
| Err (e : error).

Arguments Ok {A} a.
Arguments Err {A} e.

Definition bind {A B : Type} (r : result A) (k : A -> result B) : result B :=
  match r with
  | Ok a => k a
  | Err e => Err e
  end.

Definition fmap {A B : Type} (f : A -> B) (r : result A) : result B :=
  bind r (fun a => Ok (f a)).

(** Two results are the same vector, or both are exceptions. *)
Definition same_outcome {A : Type} (r1 r2 : result A) : Prop :=
  match r1, r2 with
  | Ok a, Ok b => a = b
  | Err _, Err _ => True
  | _, _ => False
  end.

Definition lift2 {A B C : Type} (f : A -> B -> C)
  (ra : result A) (rb : result B) : result C :=
  bind ra (fun a => bind rb (fun b => Ok (f a b))).

Notation "x <- c ;; k" := (bind c (fun x => k))
  (at level 61, c at next level, right associativity).

Fixpoint mapM {A B : Type} (f : A -> result B) (l : list A) : result (list B) :=
  match l with
  | [] => Ok []
  | a :: rest => b <- f a ;; bs <- mapM f rest ;; Ok (b :: bs)
  end.

(** ** Data processing *)

Module DataProcessing.

(** Modelled from the spec: the class [SentimentExample] of [src/utils.py] is
    not among the sources; an Example is an ordered sequence of token strings
    and an integer label, read by [build_vocab] through [_words]. *)
Record SentimentExample : Type := mkExample {
  _words : list string;
  label : Z
}.

(** A [Dict[str, int]] in insertion order. *)
Definition Vocab : Type := list (string * Z).

(** [vocab[word]], [None] when the key is absent. *)
Fixpoint lookup (word : string) (vocab : Vocab) : option Z :=
  match vocab with
  | [] => None
  | (w, i) :: rest => if String.eqb word w then Some i else lookup word rest
  end.

(** [word in vocab] *)
Definition mem (word : string) (vocab : Vocab) : bool :=
  match lookup word vocab with
  | Some _ => true
  | None => false
  end.

(** The inner loop of [build_vocab] over the words of one example; the state
    is the dictionary and the counter [i]. *)
Fixpoint build_words (words : list string) (st : Vocab * Z) : Vocab * Z :=
  match words with
  | [] => st
  | word :: rest =>
      let '(vocab, i) := st in
      if mem word vocab
      then build_words rest (vocab, i)
      else build_words rest (vocab ++ [(word, i)], (i + 1)%Z)
  end.

(** The outer loop of [build_vocab] over the examples. *)
Fixpoint build_examples (examples : list SentimentExample) (st : Vocab * Z)
  : Vocab * Z :=
  match examples with
  | [] => st
  | example :: rest => build_examples rest (build_words (_words example) st)
  end.

Definition build_vocab (examples : list SentimentExample) : Vocab :=
  fst (build_examples examples ([], 0%Z)).

(** The bounds of a 64-bit signed integer, the type of a tensor index. *)
Definition int64_min : Z := (- 2 ^ 63)%Z.
Definition int64_max : Z := (2 ^ 63 - 1)%Z.

(** Position addressed by the Python integer [idx] in a one-dimensional
    tensor of length [n] (a tensor has fewer than [2 ^ 63] entries): indexing
    accepts [-n <= idx < n] and counts a negative index from the end; an
    integer that does not fit 64 bits raises the overflow [ValueError], and
    any other one raises [IndexError]. *)
Definition tensor_index (n : nat) (idx : Z) : result nat :=
  if ((0 <=? idx) && (idx <? Z.of_nat n))%Z then Ok (Z.to_nat idx)
  else if ((- Z.of_nat n <=? idx) && (idx <? 0))%Z
       then Ok (Z.to_nat (idx + Z.of_nat n))
       else if ((idx <? int64_min) || (int64_max <? idx))%Z
            then Err ValueError
            else Err IndexError.

(** [t[k] = v] for an in-range position [k]. *)
Fixpoint update {A : Type} (k : nat) (v : A) (t : list A) {struct t}
  : list A :=
  match t, k with
  | [], _ => []
  | _ :: rest, O => v :: rest
  | x :: rest, S k' => x :: update k' v rest
  end.

(** [torch.zeros(n)] with count entries.  The entries of the tensor are
    [torch.float] numbers that hold integers, kept as natural numbers. *)
Definition zeros (n : nat) : list nat := repeat 0 n.

(** The integers up to [2 ^ 24] are [torch.float] numbers; the next one is
    not, and [2 ^ 24 + 1] rounds back to [2 ^ 24]. *)
Definition float32_exact_limit : N := 16777216%N.

(** [x + 1] on a [torch.float] entry that holds the integer [x]. *)
Definition float32_succ (x : nat) : nat :=
  if (N.of_nat x <? float32_exact_limit)%N then S x else x.

(** The loop [for word in text] of [bag_of_words], on the tensor [bow]. *)
Fixpoint bow_loop (text : list string) (vocab : Vocab) (binary : bool)
  (bow : list nat) : result (list nat) :=
  match text with
  | [] => Ok bow
  | word :: rest =>
      match lookup word vocab with
      | None => bow_loop rest vocab binary bow
      | Some idx =>
          match tensor_index (length bow) idx with
          | Err e => Err e
          | Ok k =>
              if binary
              then bow_loop rest vocab binary (update k 1 bow)
              else bow_loop rest vocab binary
                     (update k (float32_succ (nth k bow 0)) bow)
          end
      end
  end.

Definition bag_of_words (text : list string) (vocab : Vocab) (binary : bool)
  : result (list nat) :=
  bow_loop text vocab binary (zeros (length vocab)).

(** *** Specification-side notions *)

(** The tokens of all examples, examples in order and tokens in order. *)
Definition all_tokens (examples : list SentimentExample) : list string :=
  concat (map _words examples).

(** Position of the first occurrence of [w] in [l] ([length l] when absent). *)
Fixpoint first_index (w : string) (l : list string) : nat :=
  match l with
  | [] => 0
  | x :: rest => if String.eqb w x then 0 else S (first_index w rest)
  end.

(** What the loop of [build_vocab] maintains after the tokens [seen]. *)
Record vocab_inv (seen : list string) (st : Vocab * Z) : Prop := {
  inv_counter : snd st = Z.of_nat (length (fst st));
  inv_dense : map snd (fst st) = map Z.of_nat (seq 0 (length (fst st)));
  inv_keys : NoDup (map fst (fst st));
  inv_seen : forall w, In w (map fst (fst st)) <-> In w seen;
  inv_order : forall w1 w2 j k,
      In (w1, j) (fst st) -> In (w2, k) (fst st) -> (j < k)%Z ->
      (first_index w1 seen < first_index w2 seen)%nat
}.

(** A Vocabulary of the data model: distinct words, and indices that are
    distinct and fill the dense range [0, size). *)
Definition vocabulary (vocab : Vocab) : Prop :=
  NoDup (map fst vocab) /\
  NoDup (map snd vocab) /\
  Forall (fun i => (0 <= i < Z.of_nat (length vocab))%Z) (map snd vocab).

(** Element-wise sum of two count vectors. *)
Fixpoint vadd (a b : list nat) : list nat :=
  match a, b with
  | x :: a', y :: b' => (x + y) :: vadd a' b'
  | _, _ => []
  end.

(** A number of occurrences as the count that a [torch.float] entry
    reaches: the number itself up to [2 ^ 24], and [2 ^ 24] beyond. *)
Definition clip (x : nat) : nat :=
  if (N.of_nat x <=? float32_exact_limit)%N then x
  else N.to_nat float32_exact_limit.

(** Element-wise sum of two count vectors, every entry clipped at
    [2 ^ 24]. *)
Definition clipped_sum (a b : list nat) : list nat := map clip (vadd a b).

(** A text of [n] copies of the token [w]. *)
Definition copies (n : N) (w : string) : list string :=
  repeat w (N.to_nat n).

Arguments float32_succ : simpl never.
Arguments clip : simpl never.
Arguments copies : simpl never.

End DataProcessing.

(** ** Reading the examples *)

Module Reader.

Import DataProcessing.

(** The tab character. *)
Definition tab : Ascii.ascii := Ascii.ascii_of_nat 9.

(** [s.split("\t")]: the fields between the tabs, one more than there are
    tabs. *)
Fixpoint split_tab (s : string) : list string :=
  match s with
  | EmptyString => [EmptyString]
  | String ch rest =>
      if Ascii.eqb ch tab then EmptyString :: split_tab rest
      else match split_tab rest with
           | [] => [String ch EmptyString]
           | part :: parts => String ch part :: parts
           end
  end.

Section ReadSentimentExamples.

(** Modelled from the spec: [tokenize] of [src/utils.py] is not among the
    sources; it maps a sentence to its ordered sequence of tokens. *)
Variable tokenize : string -> list string.

(** The builtins [str.strip] and [int] stay abstract; [int] returns [None]
    where Python raises [ValueError]. *)
Variable strip : string -> string.
Variable int : string -> option Z.

(** The loop [for line in file] of [read_sentiment_examples], on the lines
    of the file and the list [examples] built so far. *)
Fixpoint read_lines (lines : list string) (examples : list SentimentExample)
  : result (list SentimentExample) :=
  match lines with
  | [] => Ok examples
  | line :: rest =>
      let parts := split_tab (strip line) in
      if Nat.ltb (length parts) 2 then read_lines rest examples
      else
        let sentence := hd EmptyString parts in
        match int (last parts EmptyString) with
        | None => Err ValueError
        | Some label =>
            let tokenized_sentence := tokenize sentence in
            let example := mkExample tokenized_sentence label in
            read_lines rest (examples ++ [example])
        end
  end.

(** [read_sentiment_examples], from the lines that the opened file yields. *)
Definition read_sentiment_examples (lines : list string)
  : result (list SentimentExample) :=
  read_lines lines [].

(** *** Specification-side notions *)

Fixpoint has_tab (s : string) : bool :=
  match s with
  | EmptyString => false
  | String ch rest => Ascii.eqb ch tab || has_tab rest
  end.

(** The text before the first tab (all of it when there is none). *)
Fixpoint before_first_tab (s : string) : string :=
  match s with
  | EmptyString => EmptyString
  | String ch rest =>
      if Ascii.eqb ch tab then EmptyString
      else String ch (before_first_tab rest)
  end.

(** The text after the last tab (all of it when there is none). *)
Fixpoint after_last_tab (s : string) : string :=
  match s with
  | EmptyString => EmptyString
  | String ch rest =>
      if has_tab rest then after_last_tab rest
      else if Ascii.eqb ch tab then rest
      else String ch rest
  end.

(** What a line with at least two fields becomes: the tokens of its first
    field with the integer of its last field. *)
Definition parse_line (line : string) : result SentimentExample :=
  match int (after_last_tab (strip line)) with
  | None => Err ValueError
  | Some label =>
      Ok (mkExample (tokenize (before_first_tab (strip line))) label)
  end.

End ReadSentimentExamples.

End Reader.

(** ** Tensor entries *)

Module Tensor.

Open Scope R_scope.

(** A tensor entry: an exact real, or one of the IEEE special values. *)
Inductive xreal : Type :=
| Fin (r : R)
| PInf
| NInf
| NaN.

(** Sign of a real, as a comparison with zero. *)
Definition sign_of (r : R) : comparison :=
  if Rlt_dec 0 r then Gt else if Rlt_dec r 0 then Lt else Eq.

(** The infinity of a given sign; [0 * inf] and [0 / 0] are [NaN]. *)
Definition xinf (s : comparison) : xreal :=
  match s with
  | Gt => PInf
  | Lt => NInf
  | Eq => NaN
  end.

Definition xadd (x y : xreal) : xreal :=
  match x, y with
  | NaN, _ | _, NaN => NaN
  | Fin a, Fin b => Fin (a + b)
  | PInf, NInf | NInf, PInf => NaN
  | PInf, _ | _, PInf => PInf
  | NInf, _ | _, NInf => NInf
  end.

Definition xneg (x : xreal) : xreal :=
  match x with
  | Fin a => Fin (- a)
  | PInf => NInf
  | NInf => PInf
  | NaN => NaN
  end.

Definition xsub (x y : xreal) : xreal := xadd x (xneg y).

Definition xmul (x y : xreal) : xreal :=
  match x, y with
  | NaN, _ | _, NaN => NaN
  | Fin a, Fin b => Fin (a * b)
  | Fin a, PInf | PInf, Fin a => xinf (sign_of a)
  | Fin a, NInf | NInf, Fin a => xinf (CompOpp (sign_of a))
  | PInf, PInf | NInf, NInf => PInf
  | PInf, NInf | NInf, PInf => NInf
  end.

Definition xdiv (x y : xreal) : xreal :=
  match x, y with
  | NaN, _ | _, NaN => NaN
  | Fin a, Fin b => if Req_dec_T b 0 then xinf (sign_of a) else Fin (a / b)
  | Fin _, PInf | Fin _, NInf => Fin 0
  | PInf, Fin b => if Rlt_dec b 0 then NInf else PInf
  | NInf, Fin b => if Rlt_dec b 0 then PInf else NInf
  | _, _ => NaN
  end.

(** [torch.log]: minus infinity at zero, [NaN] below. *)
Definition xlog (x : xreal) : xreal :=
  match x with
  | Fin a => if Rlt_dec 0 a then Fin (ln a)
             else if Req_dec_T a 0 then NInf else NaN
  | PInf => PInf
  | NInf => NaN
  | NaN => NaN
  end.

Definition xexp (x : xreal) : xreal :=
  match x with
  | Fin a => Fin (exp a)
  | PInf => PInf
  | NInf => Fin 0
  | NaN => NaN
  end.

(** [torch.sum] of a one-dimensional tensor. *)
Definition rsum (t : list R) : R := fold_right Rplus 0 t.
Definition xsum (t : list xreal) : xreal := fold_right xadd (Fin 0) t.

(** The floating-point kernels of torch that the classifier calls on its
    [torch.float] tensors.  Every [torch.float] number is a real number, so
    the values are entries of [xreal]; what the kernels round to, and the
    order in which [torch.sum] adds, are the library's, and the classifier
    is defined over any such kernels. *)
Record Kernels : Type := mkKernels {
  torch_log : xreal -> xreal;               (* [torch.log], on an entry *)
  torch_mul : xreal -> xreal -> xreal;      (* [a * b], on an entry *)
  torch_add : xreal -> xreal -> xreal;      (* [a + b], on an entry *)
  torch_sum : list xreal -> xreal;          (* [torch.sum(t)] *)
  torch_softmax : list xreal -> list xreal  (* [torch.softmax(t, dim=0)] *)
}.

(** [a * b] on one-dimensional tensors, with broadcasting of a tensor of
    length one; other length mismatches raise. *)
Definition tmul (K : Kernels) (a b : list xreal) : result (list xreal) :=
  if Nat.eqb (length a) (length b)
  then Ok (map (fun p => torch_mul K (fst p) (snd p)) (combine a b))
  else match a, b with
       | [x], _ => Ok (map (fun y => torch_mul K x y) b)
       | _, [y] => Ok (map (fun x => torch_mul K x y) a)
       | _, _ => Err RuntimeError
       end.

(** The order of [torch.argmax]: [xgtb x best] holds when [x] replaces the
    running maximum [best].  A [NaN] is greater than every other value, and
    an equal value never replaces an earlier one. *)
Definition xgtb (x best : xreal) : bool :=
  match x, best with
  | _, NaN => false
  | NaN, _ => true
  | PInf, PInf => false
  | PInf, _ => true
  | _, PInf => false
  | NInf, _ => false
  | Fin _, NInf => true
  | Fin a, Fin b => if Rlt_dec b a then true else false
  end.

Fixpoint argmax_from (best_idx : nat) (best : xreal) (idx : nat)
  (t : list xreal) : nat :=
  match t with
  | [] => best_idx
  | x :: rest =>
      if xgtb x best
      then argmax_from idx x (S idx) rest
      else argmax_from best_idx best (S idx) rest
  end.

(** [torch.argmax(t)]: position of the first maximal entry; an empty tensor
    raises [IndexError]. *)
Definition argmax (t : list xreal) : result nat :=
  match t with
  | [] => Err IndexError
  | x :: rest => Ok (argmax_from 0%nat x 1%nat rest)
  end.

(** [torch.max(t)] of a non-empty tensor ([NaN] for the empty one, which the
    callers below never pass). *)
Definition tmax (t : list xreal) : xreal :=
  match argmax t with
  | Ok k => nth k t NaN
  | Err _ => NaN
  end.

(** [torch.softmax(t, dim=0)]: the exponentials of the entries shifted by
    the maximum, divided by their sum. *)
Definition softmax (t : list xreal) : list xreal :=
  let m := tmax t in
  let e := map (fun x => xexp (xsub x m)) t in
  let s := xsum e in
  map (fun x => xdiv x s) e.

(** The kernels over the exact reals: no rounding, no overflow and no
    underflow.  The numeric examples are computed with them. *)
Definition exact : Kernels := mkKernels xlog xmul xadd xsum softmax.

End Tensor.

(** ** Rounding to [float] and to [torch.float]

    A finite binary floating-point number that is not negative is a pair
    [(m, e)] of integers that stands for [m * 2 ^ e].  Rounding is to the
    nearest number of the format, to the one with an even mantissa when two
    are as near.  The fractions rounded below are at most 1, far from the
    overflow threshold of both formats, which is left out. *)

Module Float.

Open Scope Z_scope.

(** The fraction [(n / d) / 2 ^ k], as numerator and denominator. *)
Definition scaled (n d k : Z) : Z * Z :=
  if 0 <=? k then (n, d * 2 ^ k) else (n * 2 ^ (- k), d).

(** The integer [e] with [2 ^ e <= n / d < 2 ^ (e + 1)], for positive [n]
    and [d]. *)
Definition exponent (n d : Z) : Z :=
  let k := Z.log2 n - Z.log2 d in
  let '(n', d') := scaled n d k in
  if n' <? d' then k - 1 else k.

(** The integer nearest to [n / d], the even one when two are as near. *)
Definition round_half_even (n d : Z) : Z :=
  let q := n / d in
  match 2 * (n mod d) ?= d with
  | Lt => q
  | Gt => q + 1
  | Eq => if Z.even q then q else q + 1
  end.

(** [n / d], for [0 <= n] and [0 < d], rounded to the binary format with
    [prec] bits of mantissa and least exponent [emin]. *)
Definition round (prec emin n d : Z) : Z * Z :=
  if n =? 0 then (0, emin)
  else
    let e := Z.max (exponent n d - (prec - 1)) emin in
    let '(n', d') := scaled n d e in
    (round_half_even n' d', e).

(** Python's [n / d] on two integers: the quotient rounded to a [float],
    the IEEE double format. *)
Definition float64_div (n d : Z) : Z * Z := round 53 (-1074) n d.

(** [torch.tensor(x, dtype=torch.float)] of a Python [float]: rounded to the
    IEEE single format. *)
Definition to_float32 (x : Z * Z) : Z * Z :=
  let '(n, d) := scaled (fst x) 1 (- snd x) in round 24 (-149) n d.

(** The real number that [(m, e)] stands for. *)
Definition value (x : Z * Z) : R :=
  if 0 <=? snd x then IZR (fst x * 2 ^ snd x)
  else (IZR (fst x) / IZR (2 ^ (- snd x)))%R.

End Float.

(** Settles the comparisons of reals that the operations above branch on. *)
Ltac decide_reals :=
  repeat match goal with
  | |- context [Req_dec_T ?a ?b] =>
      destruct (Req_dec_T a b); [try (exfalso; lra) | try (exfalso; lra)]
  | |- context [Rlt_dec ?a ?b] =>
      destruct (Rlt_dec a b); [try (exfalso; lra) | try (exfalso; lra)]
  end.

(** ** The classifier *)

Module NaiveBayesModel.

Import Tensor.
Open Scope R_scope.

(** A [Dict[int, V]] in insertion order. *)
Definition Dict (V : Type) : Type := list (Z * V).

(** [d[key]], [None] when the key is absent. *)
Fixpoint dict_get {V : Type} (key : Z) (d : Dict V) : option V :=
  match d with
  | [] => None
  | (k, v) :: rest => if Z.eqb key k then Some v else dict_get key rest
  end.

(** The state of a [NaiveBayes] object.  The two dictionaries are optional
    because [estimate_class_posteriors] tests them against [None]. *)
Record NaiveBayes : Type := mkNaiveBayes {
  class_priors : option (Dict R);
  conditional_probabilities : option (Dict (list xreal));
  vocab_size : nat
}.

(** [NaiveBayes()] *)
Definition __init__ : NaiveBayes :=
  mkNaiveBayes (Some []) (Some []) 0.

(** One update of a [Counter]: a new key goes last. *)
Fixpoint counter_add (x : Z) (c : Dict nat) : Dict nat :=
  match c with
  | [] => [(x, 1%nat)]
  | (k, n) :: rest =>
      if Z.eqb x k then (k, S n) :: rest else (k, n) :: counter_add x rest
  end.

(** [Counter(l)]: keys in order of first occurrence. *)
Definition Counter (l : list Z) : Dict nat :=
  fold_left (fun c x => counter_add x c) l [].

(** [torch.tensor(count / total_count, dtype=torch.float)]: the quotient of
    the two integers is a Python [float], rounded once more when it is
    stored as a [torch.float] number. *)
Definition prior_tensor (count total_count : nat) : R :=
  Float.value
    (Float.to_float32
       (Float.float64_div (Z.of_nat count) (Z.of_nat total_count))).

Arguments prior_tensor : simpl never.

Definition estimate_class_priors (labels : list Z) : Dict R :=
  let class_counts := Counter labels in
  let total_count := length labels in
  map (fun p => (fst p, prior_tensor (snd p) total_count)) class_counts.

(** Insertion in a strictly increasing list. *)
Fixpoint insert_unique (x : Z) (l : list Z) : list Z :=
  match l with
  | [] => [x]
  | y :: rest =>
      if (x <? y)%Z then x :: l
      else if (x =? y)%Z then l
      else y :: insert_unique x rest
  end.

(** [torch.unique(labels)]: the distinct values, sorted. *)
Definition unique (labels : list Z) : list Z :=
  fold_right insert_unique [] labels.

(** [features.shape[1]] of a two-dimensional tensor given by its rows, of
    which there is at least one: the rows of a tensor without rows do not
    tell its width, and what is proved of [fit] assumes a first row. *)
Definition shape1 (features : list (list R)) : nat :=
  match features with
  | [] => 0%nat
  | row :: _ => length row
  end.

(** [features[labels == class_label]]: the rows selected by the mask, which
    must be as long as the tensor has rows. *)
Definition mask_select (features : list (list R)) (labels : list Z)
  (class_label : Z) : result (list (list R)) :=
  if Nat.eqb (length labels) (length features)
  then Ok (map snd (filter (fun p => Z.eqb (fst p) class_label)
                           (combine labels features)))
  else Err IndexError.

(** [torch.sum(rows, dim=0)] for rows of width [width]. *)
Definition sum_dim0 (width : nat) (rows : list (list R)) : list R :=
  map (fun i => rsum (map (fun row => nth i row 0) rows)) (seq 0 width).

(** The body of the loop of [estimate_conditional_probabilities] once the
    examples of the class are selected. *)
Definition smoothed_probs (features class_examples : list (list R))
  (delta : R) : list xreal :=
  let word_counts := sum_dim0 (shape1 features) class_examples in
  let total_words := rsum word_counts in
  map (fun wc => xdiv (Fin (wc + delta))
                   (Fin (total_words + delta * INR (shape1 features))))
      word_counts.

Definition estimate_conditional_probabilities (features : list (list R))
  (labels : list Z) (delta : R) : result (Dict (list xreal)) :=
  let unique_classes := unique labels in
  mapM (fun class_label =>
          class_examples <- mask_select features labels class_label ;;
          Ok (class_label, smoothed_probs features class_examples delta))
       unique_classes.

(** [fit] assigns the attributes one after the other, so an exception of
    [estimate_conditional_probabilities] leaves the first two assigned. *)
Definition fit (self : NaiveBayes) (features : list (list R))
  (labels : list Z) (delta : R) : NaiveBayes * result unit :=
  let self1 := mkNaiveBayes (Some (estimate_class_priors labels))
                            (conditional_probabilities self)
                            (shape1 features) in
  match estimate_conditional_probabilities features labels delta with
  | Ok cps => (mkNaiveBayes (class_priors self1) (Some cps) (vocab_size self1),
               Ok tt)
  | Err e => (self1, Err e)
  end.

Section Prediction.

(** The kernels of torch behind the three prediction methods. *)
Variable K : Kernels.

Definition estimate_class_posteriors (self : NaiveBayes) (feature : list R)
  : result (list xreal) :=
  match conditional_probabilities self, class_priors self with
  | Some cps, Some priors =>
      mapM (fun item =>
              let '(class_label, class_prior) := item in
              match dict_get class_label cps with
              | None => Err KeyError
              | Some probs =>
                  let log_conditional_probs := map (torch_log K) probs in
                  prods <- tmul K (map Fin feature) log_conditional_probs ;;
                  let log_likelihood := torch_sum K prods in
                  Ok (torch_add K (torch_log K (Fin class_prior))
                                log_likelihood)
              end)
           priors
  | _, _ => Err ValueError
  end.

(** [not d] for an attribute that holds a dictionary or [None]. *)
Definition falsy {V : Type} (d : option (Dict V)) : bool :=
  match d with
  | None | Some [] => true
  | Some (_ :: _) => false
  end.

Definition predict (self : NaiveBayes) (feature : list R) : result Z :=
  if falsy (class_priors self) || falsy (conditional_probabilities self)
  then Err NotTrained
  else
    log_posteriors <- estimate_class_posteriors self feature ;;
    pred <- argmax log_posteriors ;;
    Ok (Z.of_nat pred).

Definition predict_proba (self : NaiveBayes) (feature : list R)
  : result (list xreal) :=
  if falsy (class_priors self) || falsy (conditional_probabilities self)
  then Err NotTrained
  else
    log_posteriors <- estimate_class_posteriors self feature ;;
    Ok (torch_softmax K log_posteriors).

End Prediction.

(** *** Specification-side notions *)

(** Number of examples that carry the label [c]. *)
Definition label_count (c : Z) (labels : list Z) : nat :=
  count_occ Z.eq_dec labels c.

(** Total count of vocabulary word [i] over the examples of class [c]. *)
Fixpoint word_count (c : Z) (i : nat) (features : list (list R))
  (labels : list Z) : R :=
  match features, labels with
  | row :: features', l :: labels' =>
      (if Z.eqb l c then nth i row 0 else 0) + word_count c i features' labels'
  | _, _ => 0
  end.

(** Total count of all [width] vocabulary words over the examples of [c]. *)
Definition class_total (c : Z) (width : nat) (features : list (list R))
  (labels : list Z) : R :=
  rsum (map (fun i => word_count c i features labels) (seq 0 width)).

(** A model trained by a call of [fit] on a non-empty rectangular tensor
    with as many labels as rows. *)
Definition trained_by (features : list (list R)) (labels : list Z)
  (delta : R) (model : NaiveBayes) : Prop :=
  features <> [] /\
  length features = length labels /\
  Forall (fun row => length row = shape1 features) features /\
  exists self, fit self features labels delta = (model, Ok tt).

(** A strictly positive finite entry. *)
Definition xpositive (x : xreal) : Prop :=
  match x with
  | Fin r => 0 < r
  | _ => False
  end.

(** The order in which [torch.argmax] looks for the greatest entry: [NaN]
    is above everything, then plus infinity, the reals in their order, and
    minus infinity. *)
Definition xreal_le (x y : xreal) : Prop :=
  match x, y with
  | _, NaN => True
  | NaN, _ => False
  | _, PInf => True
  | PInf, _ => False
  | NInf, _ => True
  | Fin _, NInf => False
  | Fin a, Fin b => a <= b
  end.

Definition xreal_lt (x y : xreal) : Prop := xreal_le x y /\ ~ xreal_le y x.

(** The log-posterior of one class as the kernels compute it: the logarithm
    of the prior plus the sum of the entries of the feature vector times
    the logarithms of the conditional probabilities. *)
Definition log_posterior (K : Kernels) (feature : list R) (prior : R)
  (probs : list xreal) : xreal :=
  torch_add K
    (torch_log K (Fin prior))
    (torch_sum K
       (map (fun p => torch_mul K (Fin (fst p)) (torch_log K (snd p)))
            (combine feature probs))).

(** What IEEE arithmetic guarantees of the kernels on the values that an
    all-zero feature vector brings: zero times a finite number is zero, a
    sum of zeros is zero, adding zero changes nothing, and the logarithm of
    a positive number is finite. *)
Record zero_laws (K : Kernels) : Prop := {
  mul_zero : forall r, torch_mul K (Fin 0) (Fin r) = Fin 0;
  sum_zeros : forall n, torch_sum K (repeat (Fin 0) n) = Fin 0;
  add_zero : forall x, torch_add K x (Fin 0) = x;
  log_finite : forall p, 0 < p -> exists r, torch_log K (Fin p) = Fin r
}.

(** The body of the loop of [estimate_class_posteriors] for one item of
    [class_priors]. *)
Definition class_log_posterior (K : Kernels) (cps : Dict (list xreal))
  (feature : list R) (item : Z * R) : result xreal :=
  match dict_get (fst item) cps with
  | None => Err KeyError
  | Some probs =>
      prods <- tmul K (map Fin feature) (map (torch_log K) probs) ;;
      Ok (torch_add K (torch_log K (Fin (snd item))) (torch_sum K prods))
  end.

(** The smoothed vector that [fit] stores for the class [c]. *)
Definition class_vector (features : list (list R)) (labels : list Z)
  (delta : R) (c : Z) : list xreal :=
  map (fun i =>
         xdiv (Fin (word_count c i features labels + delta))
              (Fin (class_total c (shape1 features) features labels
                    + delta * INR (shape1 features))))
      (seq 0 (shape1 features)).

(** The distinct values of a list in the order of their first occurrence. *)
Fixpoint first_occurrences (l : list Z) : list Z :=
  match l with
  | [] => []
  | x :: rest =>
      x :: filter (fun y => negb (Z.eqb y x)) (first_occurrences rest)
  end.

End NaiveBayesModel.

(** ** The end-to-end example of the specification *)

Module EndToEnd.

Import DataProcessing Tensor NaiveBayesModel.
Open Scope R_scope.

Definition vocab : Vocab :=
  [("good"%string, 0%Z); ("movie"%string, 1%Z); ("bad"%string, 2%Z)].

Definition examples : list SentimentExample :=
  [mkExample ["good"; "movie"]%string 1%Z;
   mkExample ["bad"; "movie"]%string 0%Z].

(** A count vector as a tensor of reals. *)
Definition to_tensor (bow : list nat) : list R := map INR bow.

(** Modelled from the spec: the training script is not among the sources;
    the feature matrix holds the count vector of every example, in example
    order, and the label sequence holds their labels. *)
Definition features_of (examples : list SentimentExample) (vocab : Vocab)
  : result (list (list R)) :=
  mapM (fun example =>
          fmap to_tensor (bag_of_words (_words example) vocab false))
       examples.

Definition labels_of (examples : list SentimentExample) : list Z :=
  map label examples.

Definition features : list (list R) := [[1; 1; 0]; [0; 1; 1]].

Definition labels : list Z := [1; 0]%Z.

(** The two dictionaries that [fit] builds from the example with
    [delta = 1]. *)
Definition model_priors : Dict R := [(1%Z, 1 / 2); (0%Z, 1 / 2)].

Definition model_vectors : Dict (list xreal) :=
  [(0%Z, [Fin (1 / 5); Fin (2 / 5); Fin (2 / 5)]);
   (1%Z, [Fin (2 / 5); Fin (2 / 5); Fin (1 / 5)])].

(** The model that [fit] builds from the example with [delta = 1]. *)
Definition model : NaiveBayes :=
  mkNaiveBayes (Some model_priors) (Some model_vectors) 3.

(** The model that [fit] builds from the example without smoothing. *)
Definition unsmoothed_model : NaiveBayes :=
  mkNaiveBayes
    (Some [(1%Z, 1 / 2); (0%Z, 1 / 2)])
    (Some [(0%Z, [Fin 0; Fin (1 / 2); Fin (1 / 2)]);
           (1%Z, [Fin (1 / 2); Fin (1 / 2); Fin 0])])
    3.

(** The log-posteriors of the two classes of [model] on the count vector of
    "good movie", in the order of [class_priors]: class 1, then class 0. *)
Definition log_posterior_1 : R :=
  ln (1 / 2) + (1 * ln (2 / 5) + (1 * ln (2 / 5) + (0 * ln (1 / 5) + 0))).

Definition log_posterior_0 : R :=
  ln (1 / 2) + (1 * ln (1 / 5) + (1 * ln (2 / 5) + (0 * ln (2 / 5) + 0))).

(** Two lines of a data file: a sentence, a tab and a label; the label of
    the second one is not an integer. *)
Definition good_line : string :=
  String.append "good movie" (String Reader.tab "1").

Definition bad_line : string :=
  String.append "bad film" (String Reader.tab "x").

Definition file_lines : list string := [good_line; bad_line].

End EndToEnd.

(** * Properties of the data processing *)

Section VocabularyFacts.

Import DataProcessing.

Lemma lookup_Some_In (w : string) (vocab : Vocab) (i : Z) :
  lookup w vocab = Some i -> In (w, i) vocab.
Proof.
  induction vocab as [| [k v] rest IH]; simpl; [discriminate |].
  destruct (String.eqb w k) eqn:E.
  - apply String.eqb_eq in E. intros H. injection H as <-. subst. now left.
  - intros H. right. now apply IH.
Qed.

Lemma lookup_None_iff (w : string) (vocab : Vocab) :
  lookup w vocab = None <-> ~ In w (map fst vocab).
Proof.
  induction vocab as [| [k v] rest IH]; simpl.
  - split; [intros _ [] | reflexivity].
  - destruct (String.eqb w k) eqn:E.
    + apply String.eqb_eq in E. subst. split; [discriminate |].
      intros H. exfalso. apply H. now left.
    + apply String.eqb_neq in E. rewrite IH. split.
      * intros H [H1 | H1]; [now apply E | now apply H].
      * intros H H1. apply H. now right.
Qed.

Lemma mem_true_iff (w : string) (vocab : Vocab) :
  mem w vocab = true <-> In w (map fst vocab).
Proof.
  unfold mem. destruct (lookup w vocab) eqn:E.
  - split; [intros _ | reflexivity].
    apply lookup_Some_In in E. apply in_map_iff. now exists (w, z).
  - split; [discriminate |]. intros H. now apply lookup_None_iff in E.
Qed.

Lemma In_lookup_NoDup (w : string) (i : Z) (vocab : Vocab) :
  NoDup (map fst vocab) -> In (w, i) vocab -> lookup w vocab = Some i.
Proof.
  induction vocab as [| [k v] rest IH]; simpl; [intros _ [] |].
  intros Hnd [H | H].
  - injection H as -> ->. now rewrite String.eqb_refl.
  - inversion Hnd as [| ? ? Hk Hrest]; subst.
    destruct (String.eqb w k) eqn:E.
    + apply String.eqb_eq in E. subst. exfalso. apply Hk.
      apply in_map_iff. now exists (k, i).
    + now apply IH.
Qed.

Lemma snd_injective (vocab : Vocab) (a b : string) (i : Z) :
  NoDup (map snd vocab) -> In (a, i) vocab -> In (b, i) vocab -> a = b.
Proof.
  induction vocab as [| [k v] rest IH]; simpl; [intros _ [] |].
  intros Hnd Ha Hb. inversion Hnd as [| ? ? Hv Hrest]; subst.
  assert (Hin : forall x, In (x, v) rest -> False).
  { intros x Hx. apply Hv. apply in_map_iff. now exists (x, v). }
  destruct Ha as [Ha | Ha], Hb as [Hb | Hb].
  - congruence.
  - injection Ha as <- <-. exfalso. eauto.
  - injection Hb as <- <-. exfalso. eauto.
  - now apply IH.
Qed.

Lemma first_index_lt (w : string) (l : list string) :
  In w l -> (first_index w l < length l)%nat.
Proof.
  induction l as [| x rest IH]; simpl; [intros [] |].
  intros H. destruct (String.eqb w x) eqn:E; [lia |].
  apply String.eqb_neq in E. destruct H as [H | H]; [congruence |].
  apply IH in H. lia.
Qed.

Lemma first_index_app_in (w : string) (l r : list string) :
  In w l -> first_index w (l ++ r) = first_index w l.
Proof.
  induction l as [| x rest IH]; simpl; [intros [] |].
  intros H. destruct (String.eqb w x) eqn:E; [reflexivity |].
  apply String.eqb_neq in E. destruct H as [H | H]; [congruence |].
  now rewrite IH.
Qed.

Lemma first_index_app_notin (w : string) (l r : list string) :
  ~ In w l -> first_index w (l ++ r) = (length l + first_index w r)%nat.
Proof.
  induction l as [| x rest IH]; simpl; [reflexivity |].
  intros H. destruct (String.eqb w x) eqn:E.
  - apply String.eqb_eq in E. exfalso. apply H. now left.
  - rewrite IH; [reflexivity |]. intros H1. apply H. now right.
Qed.

Lemma build_words_app (a b : list string) (st : Vocab * Z) :
  build_words (a ++ b) st = build_words b (build_words a st).
Proof.
  revert st. induction a as [| w a IH]; intros [vocab i]; simpl; [reflexivity |].
  destruct (mem w vocab); apply IH.
Qed.

Lemma build_examples_tokens (examples : list SentimentExample) (st : Vocab * Z) :
  build_examples examples st = build_words (all_tokens examples) st.
Proof.
  revert st. induction examples as [| e rest IH]; intros st; [reflexivity |].
  unfold all_tokens. simpl. rewrite build_words_app. apply IH.
Qed.

Lemma dense_range (vocab : Vocab) (w : string) (k : Z) :
  map snd vocab = map Z.of_nat (seq 0 (length vocab)) ->
  In (w, k) vocab -> (0 <= k < Z.of_nat (length vocab))%Z.
Proof.
  intros Hd Hin.
  assert (H : In k (map snd vocab)) by (apply in_map_iff; now exists (w, k)).
  rewrite Hd in H. apply in_map_iff in H as [n [<- Hn]].
  apply in_seq in Hn. lia.
Qed.

Lemma vocab_inv_step (seen : list string) (st : Vocab * Z) (w : string) :
  vocab_inv seen st -> vocab_inv (seen ++ [w]) (build_words [w] st).
Proof.
  destruct st as [vocab i]. intros [Hc Hd Hk Hs Ho]. simpl in *.
  destruct (mem w vocab) eqn:Hm.
  - apply mem_true_iff in Hm. pose proof (proj1 (Hs w) Hm) as Hw.
    constructor; simpl; auto.
    + intros x. rewrite Hs, in_app_iff. simpl. intuition (subst; auto).
    + intros w1 w2 j k H1 H2 Hlt.
      assert (In w1 seen) by (apply Hs, in_map_iff; now exists (w1, j)).
      assert (In w2 seen) by (apply Hs, in_map_iff; now exists (w2, k)).
      rewrite !first_index_app_in by assumption. eauto.
  - assert (Hw : ~ In w seen).
    { intros H. apply Hs, mem_true_iff in H. congruence. }
    assert (Hkey : ~ In w (map fst vocab)) by (now rewrite Hs).
    constructor; simpl.
    + rewrite length_app. simpl. lia.
    + rewrite map_app, length_app. simpl.
      rewrite Nat.add_1_r, seq_S, map_app. simpl. now rewrite Hd, Hc.
    + rewrite map_app. simpl. apply NoDup_app; auto.
      * constructor; [intros [] | constructor].
      * intros x Hx [<- | []]. contradiction.
    + intros x. rewrite map_app, !in_app_iff, Hs. simpl. tauto.
    + intros w1 w2 j k H1 H2 Hlt.
      apply in_app_iff in H1. apply in_app_iff in H2. simpl in H1, H2.
      destruct H1 as [H1 | [H1 | []]], H2 as [H2 | [H2 | []]].
      * assert (In w1 seen) by (apply Hs, in_map_iff; now exists (w1, j)).
        assert (In w2 seen) by (apply Hs, in_map_iff; now exists (w2, k)).
        rewrite !first_index_app_in by assumption. eauto.
      * injection H2 as <- <-.
        assert (Hin : In w1 seen) by (apply Hs, in_map_iff; now exists (w1, j)).
        rewrite first_index_app_in by assumption.
        rewrite first_index_app_notin by assumption.
        apply first_index_lt in Hin. lia.
      * injection H1 as <- <-. apply (dense_range _ _ _ Hd) in H2. lia.
      * injection H1 as <- <-. injection H2 as <- <-. lia.
Qed.

Lemma vocab_inv_words (tokens : list string) :
  vocab_inv tokens (build_words tokens ([], 0%Z)).
Proof.
  induction tokens as [| w seen IH] using rev_ind.
  - constructor; simpl; auto; try constructor; tauto.
  - rewrite build_words_app. now apply vocab_inv_step.
Qed.

End VocabularyFacts.

(** C7. [build_vocab] gives every distinct token of the examples exactly one
    index; the indices are distinct and are exactly the integers of the dense
    range [0, size of the vocabulary); and a token has a smaller index than
    another one exactly when its first occurrence, over the examples in order
    and the tokens of each example in order, comes earlier. *)
Theorem build_vocab_dense_first_seen
  (examples : list DataProcessing.SentimentExample) :
  let vocab := DataProcessing.build_vocab examples in
  let tokens := DataProcessing.all_tokens examples in
  NoDup (map fst vocab) /\
  (forall w, In w tokens <-> exists i, DataProcessing.lookup w vocab = Some i) /\
  NoDup (map snd vocab) /\
  (forall i, In i (map snd vocab) <-> (0 <= i < Z.of_nat (length vocab))%Z) /\
  (forall w1 w2 i1 i2,
      DataProcessing.lookup w1 vocab = Some i1 ->
      DataProcessing.lookup w2 vocab = Some i2 ->
      ((i1 < i2)%Z <->
       (DataProcessing.first_index w1 tokens
        < DataProcessing.first_index w2 tokens)%nat)).
Proof.
  intros vocab tokens.
  pose proof (vocab_inv_words tokens) as [Hc Hd Hk Hs Ho].
  unfold tokens in Hc, Hd, Hk, Hs, Ho.
  rewrite <- build_examples_tokens in Hc, Hd, Hk, Hs, Ho.
  fold (DataProcessing.build_vocab examples) in Hc, Hd, Hk, Hs, Ho.
  fold vocab in Hc, Hd, Hk, Hs, Ho. fold tokens in Hs, Ho.
  assert (Hnd : NoDup (map snd vocab)).
  { rewrite Hd. apply Injective_map_NoDup; [| apply seq_NoDup].
    intros a b. apply Nat2Z.inj. }
  split; [assumption |]. split; [| split; [assumption | split]].
  - intros w. rewrite <- Hs, <- mem_true_iff. unfold DataProcessing.mem.
    destruct (DataProcessing.lookup w vocab); split; eauto; try discriminate.
    all: try (intros [i Hi]; discriminate).
  - intros i. rewrite Hd, in_map_iff. split.
    + intros [n [<- Hn]]. apply in_seq in Hn. lia.
    + intros Hi. exists (Z.to_nat i). split; [lia |]. apply in_seq. lia.
  - intros w1 w2 i1 i2 H1 H2.
    apply lookup_Some_In in H1. apply lookup_Some_In in H2.
    split; [now apply Ho |].
    intros Hlt. destruct (Z.lt_trichotomy i1 i2) as [H | [H | H]]; auto.
    + subst i2. rewrite (snd_injective _ _ _ _ Hnd H1 H2) in Hlt. lia.
    + pose proof (Ho _ _ _ _ H2 H1 H). lia.
Qed.

Section BagOfWordsFacts.

Import DataProcessing.

Lemma update_length (A : Type) (k : nat) (v : A) (t : list A) :
  length (update k v t) = length t.
Proof.
  revert k. induction t as [| x t IH]; intros [| k]; simpl; auto.
Qed.

Lemma nth_update (A : Type) (k j : nat) (v d : A) (t : list A) :
  (k < length t)%nat ->
  nth j (update k v t) d = if Nat.eqb j k then v else nth j t d.
Proof.
  revert k j. induction t as [| x t IH]; intros k j Hk; simpl in Hk; [lia |].
  destruct k as [| k], j as [| j]; simpl; auto.
  apply IH. lia.
Qed.

Lemma update_same (A : Type) (k : nat) (d : A) (t : list A) :
  update k (nth k t d) t = t.
Proof.
  revert k. induction t as [| x t IH]; intros [| k]; simpl; auto.
  now rewrite IH.
Qed.

Lemma map_update (A B : Type) (f : A -> B) (k : nat) (v : A) (t : list A) :
  map f (update k v t) = update k (f v) (map f t).
Proof.
  revert k. induction t as [| x t IH]; intros [| k]; simpl; auto.
  now rewrite IH.
Qed.

Lemma tensor_index_lt (n : nat) (idx : Z) (k : nat) :
  tensor_index n idx = Ok k -> (k < n)%nat.
Proof.
  unfold tensor_index.
  destruct ((0 <=? idx) && (idx <? Z.of_nat n))%Z eqn:E1.
  - intros H. injection H as <-. lia.
  - destruct ((- Z.of_nat n <=? idx) && (idx <? 0))%Z eqn:E2.
    + intros H. injection H as <-. lia.
    + destruct ((idx <? int64_min) || (int64_max <? idx))%Z; discriminate.
Qed.

Lemma tensor_index_in_range (n : nat) (idx : Z) :
  (0 <= idx < Z.of_nat n)%Z -> tensor_index n idx = Ok (Z.to_nat idx).
Proof.
  intros H. unfold tensor_index.
  replace ((0 <=? idx) && (idx <? Z.of_nat n))%Z with true; [reflexivity |].
  symmetry. apply andb_true_iff. split; lia.
Qed.

Lemma bow_loop_length (text : list string) (vocab : Vocab) (binary : bool)
  (bow bow' : list nat) :
  bow_loop text vocab binary bow = Ok bow' -> length bow' = length bow.
Proof.
  revert bow. induction text as [| w text IH]; intros bow; simpl.
  - intros H. now injection H as <-.
  - destruct (lookup w vocab) as [idx |]; [| apply IH].
    destruct (tensor_index (length bow) idx) as [k | e]; [| discriminate].
    destruct binary; intros H; apply IH in H; now rewrite update_length in H.
Qed.

Lemma bow_loop_app (t1 t2 : list string) (vocab : Vocab) (binary : bool)
  (bow : list nat) :
  bow_loop (t1 ++ t2) vocab binary bow =
  bind (bow_loop t1 vocab binary bow) (bow_loop t2 vocab binary).
Proof.
  revert bow. induction t1 as [| w t1 IH]; intros bow; simpl; [reflexivity |].
  destruct (lookup w vocab) as [idx |]; [| apply IH].
  destruct (tensor_index (length bow) idx) as [k | e]; [| reflexivity].
  destruct binary; apply IH.
Qed.

(** A token outside the vocabulary leaves the loop where it was. *)
Lemma bow_loop_oov (t1 t2 : list string) (w : string) (vocab : Vocab)
  (binary : bool) (bow : list nat) :
  lookup w vocab = None ->
  bow_loop (t1 ++ w :: t2) vocab binary bow =
  bow_loop (t1 ++ t2) vocab binary bow.
Proof.
  intros Hw. rewrite !bow_loop_app. simpl. now rewrite Hw.
Qed.

Lemma count_occ_cons (x w : string) (text : list string) :
  count_occ string_dec (x :: text) w =
  ((if String.eqb x w then 1 else 0) + count_occ string_dec text w)%nat.
Proof.
  simpl. destruct (string_dec x w) as [-> | Hn].
  - now rewrite String.eqb_refl.
  - apply String.eqb_neq in Hn. now rewrite Hn.
Qed.

Lemma float32_succ_exact (x : nat) :
  (N.of_nat x < float32_exact_limit)%N -> float32_succ x = S x.
Proof.
  intros H. unfold float32_succ.
  destruct (N.ltb_spec (N.of_nat x) float32_exact_limit); [reflexivity | lia].
Qed.

Lemma float32_succ_stuck (x : nat) :
  (float32_exact_limit <= N.of_nat x)%N -> float32_succ x = x.
Proof.
  intros H. unfold float32_succ.
  destruct (N.ltb_spec (N.of_nat x) float32_exact_limit); [lia | reflexivity].
Qed.

Lemma float32_succ_bounded (x : nat) :
  (N.of_nat x <= float32_exact_limit)%N ->
  (N.of_nat (float32_succ x) <= float32_exact_limit)%N.
Proof.
  intros H. unfold float32_succ.
  destruct (N.ltb_spec (N.of_nat x) float32_exact_limit); lia.
Qed.

Lemma clip_small (x : nat) :
  (N.of_nat x <= float32_exact_limit)%N -> clip x = x.
Proof.
  intros H. unfold clip.
  destruct (N.leb_spec (N.of_nat x) float32_exact_limit); [reflexivity | lia].
Qed.

Lemma clip_large (x : nat) :
  (float32_exact_limit <= N.of_nat x)%N ->
  clip x = N.to_nat float32_exact_limit.
Proof.
  intros H. unfold clip.
  destruct (N.leb_spec (N.of_nat x) float32_exact_limit); [lia | reflexivity].
Qed.

(** One more occurrence of a word moves its entry from the clipped count to
    the clipped next count. *)
Lemma float32_succ_clip (x : nat) : float32_succ (clip x) = clip (S x).
Proof.
  destruct (N.lt_ge_cases (N.of_nat x) float32_exact_limit) as [H | H].
  - rewrite (clip_small x) by lia. rewrite float32_succ_exact by assumption.
    symmetry. apply clip_small. lia.
  - rewrite (clip_large (S x)) by lia.
    destruct (N.eq_dec (N.of_nat x) float32_exact_limit) as [E | E].
    + rewrite (clip_small x) by lia. rewrite float32_succ_stuck by lia. lia.
    + rewrite (clip_large x) by lia. apply float32_succ_stuck. lia.
Qed.

Lemma clip_add_clip (a c : nat) : clip (clip a + c) = clip (a + c).
Proof.
  destruct (N.le_gt_cases (N.of_nat a) float32_exact_limit) as [H | H].
  - now rewrite (clip_small a).
  - rewrite (clip_large a) by lia.
    rewrite (clip_large (a + c)) by lia. apply clip_large. lia.
Qed.

(** The entries of the loop never pass the limit. *)
Lemma bow_loop_bounded (text : list string) (vocab : Vocab) (binary : bool) :
  forall bow bow',
    (forall k, (N.of_nat (nth k bow 0%nat) <= float32_exact_limit)%N) ->
    bow_loop text vocab binary bow = Ok bow' ->
    forall k, (N.of_nat (nth k bow' 0%nat) <= float32_exact_limit)%N.
Proof.
  induction text as [| x text IH]; intros bow bow' Hb; simpl.
  - intros H. now injection H as <-.
  - destruct (lookup x vocab) as [idx |]; [| now apply IH].
    destruct (tensor_index (length bow) idx) as [j | e] eqn:Hj;
      [| discriminate].
    pose proof (tensor_index_lt _ _ _ Hj) as Hlt.
    destruct binary; apply IH; intros k; rewrite nth_update by assumption;
      destruct (Nat.eqb k j); auto.
    + unfold float32_exact_limit. lia.
    + now apply float32_succ_bounded.
Qed.

(** The loop on a vocabulary of the data model: it never raises, and the entry
    of every vocabulary word is set (binary) or incremented (count) once per
    occurrence of that word, up to the limit of the exact counts. *)
Lemma bow_loop_vocabulary (vocab : Vocab) (binary : bool) :
  vocabulary vocab ->
  forall (text : list string) (bow : list nat),
    length bow = length vocab ->
    (forall k, (N.of_nat (nth k bow 0%nat) <= float32_exact_limit)%N) ->
    exists bow',
      bow_loop text vocab binary bow = Ok bow' /\
      forall w i, lookup w vocab = Some i ->
        nth (Z.to_nat i) bow' 0%nat =
        if binary
        then (if in_dec string_dec w text then 1%nat
              else nth (Z.to_nat i) bow 0%nat)
        else clip (nth (Z.to_nat i) bow 0 + count_occ string_dec text w)%nat.
Proof.
  intros (Hk & Hs & Hr) text.
  assert (Hrange : forall w i, lookup w vocab = Some i ->
                               (0 <= i < Z.of_nat (length vocab))%Z).
  { intros w i H. apply lookup_Some_In in H. rewrite Forall_forall in Hr.
    apply Hr, in_map_iff. now exists (w, i). }
  induction text as [| x text IH]; intros bow Hlen Hb.
  - exists bow. split; [reflexivity |]. intros w i _.
    destruct binary; simpl; [reflexivity |].
    rewrite Nat.add_0_r. symmetry. now apply clip_small.
  - simpl bow_loop. destruct (lookup x vocab) as [idx |] eqn:Hx.
    + pose proof (Hrange _ _ Hx) as Hidx.
      rewrite Hlen, (tensor_index_in_range _ _ Hidx).
      set (k := Z.to_nat idx).
      assert (Hklt : (k < length bow)%nat) by (unfold k; lia).
      assert (Hstep : forall v w i, lookup w vocab = Some i ->
                nth (Z.to_nat i) (update k v bow) 0%nat =
                if String.eqb x w then v else nth (Z.to_nat i) bow 0%nat).
      { intros v w i Hw. rewrite nth_update by assumption.
        destruct (String.eqb x w) eqn:E.
        - apply String.eqb_eq in E. subst w.
          assert (i = idx) by congruence. subst i. fold k.
          now rewrite Nat.eqb_refl.
        - apply String.eqb_neq in E.
          replace (Z.to_nat i =? k)%nat with false; [reflexivity |].
          symmetry. apply Nat.eqb_neq. intros Heq. apply E.
          pose proof (Hrange _ _ Hw). assert (i = idx) by (unfold k in Heq; lia).
          subst i. apply lookup_Some_In in Hx, Hw.
          exact (snd_injective _ _ _ _ Hs Hx Hw). }
      assert (Hbound : forall v,
                (N.of_nat v <= float32_exact_limit)%N ->
                forall j, (N.of_nat (nth j (update k v bow) 0%nat)
                           <= float32_exact_limit)%N).
      { intros v Hv j. rewrite nth_update by assumption.
        now destruct (Nat.eqb j k). }
      destruct binary.
      * destruct (IH (update k 1%nat bow)) as [bow' [Hrun Hval]];
          [now rewrite update_length
          | apply Hbound; unfold float32_exact_limit; lia |].
        exists bow'. split; [assumption |]. intros w i Hw.
        rewrite (Hval _ _ Hw), (Hstep _ _ _ Hw).
        destruct (in_dec string_dec w text) as [Hin | Hin];
          destruct (in_dec string_dec w (x :: text)) as [Hin' | Hin'];
          simpl in Hin'; try reflexivity.
        -- exfalso. apply Hin'. now right.
        -- destruct Hin' as [-> | Hin']; [| contradiction].
           now rewrite String.eqb_refl.
        -- destruct (String.eqb x w) eqn:E; [| reflexivity].
           apply String.eqb_eq in E. exfalso. apply Hin'. now left.
      * destruct (IH (update k (float32_succ (nth k bow 0%nat)) bow))
          as [bow' [Hrun Hval]];
          [now rewrite update_length
          | apply Hbound; now apply float32_succ_bounded |].
        exists bow'. split; [assumption |]. intros w i Hw.
        rewrite (Hval _ _ Hw), (Hstep _ _ _ Hw), count_occ_cons.
        destruct (String.eqb x w) eqn:E; [| reflexivity].
        apply String.eqb_eq in E. subst w.
        assert (i = idx) by congruence. subst i. fold k.
        rewrite <- (clip_small (nth k bow 0%nat)) at 1 by apply Hb.
        rewrite float32_succ_clip, clip_add_clip. f_equal. lia.
    + destruct (IH bow Hlen Hb) as [bow' [Hrun Hval]].
      exists bow'. split; [assumption |]. intros w i Hw.
      rewrite (Hval _ _ Hw), count_occ_cons.
      assert (E : String.eqb x w = false).
      { apply String.eqb_neq. intros ->. congruence. }
      rewrite E.
      destruct binary; [| reflexivity].
      destruct (in_dec string_dec w text) as [Hin | Hin];
        destruct (in_dec string_dec w (x :: text)) as [Hin' | Hin'];
        simpl in Hin'; try reflexivity.
      * exfalso. apply Hin'. now right.
      * apply String.eqb_neq in E. destruct Hin' as [-> | Hin']; tauto.
Qed.

(** Every position of a vocabulary of the data model is the index of a word. *)
Lemma vocabulary_onto (vocab : Vocab) (k : nat) :
  vocabulary vocab -> (k < length vocab)%nat ->
  exists w, lookup w vocab = Some (Z.of_nat k).
Proof.
  intros (Hk & Hs & Hr) Hlt.
  assert (Hincl : incl (map Z.of_nat (seq 0 (length vocab))) (map snd vocab)).
  { apply NoDup_length_incl; [assumption | |].
    - rewrite !length_map, length_seq. lia.
    - intros i Hi. rewrite Forall_forall in Hr. apply Hr in Hi.
      apply in_map_iff. exists (Z.to_nat i). split; [lia |].
      apply in_seq. lia. }
  assert (Hin : In (Z.of_nat k) (map snd vocab)).
  { apply Hincl, in_map, in_seq. lia. }
  apply in_map_iff in Hin as [[w i] [Hi Hin]]. simpl in Hi. subst i.
  exists w. now apply In_lookup_NoDup.
Qed.

Lemma nth_repeat_zero (n k : nat) : nth k (zeros n) 0%nat = 0%nat.
Proof.
  unfold zeros. revert k. induction n as [| n IH]; intros [| k]; simpl; auto.
Qed.

Lemma zeros_bounded (n k : nat) :
  (N.of_nat (nth k (zeros n) 0%nat) <= float32_exact_limit)%N.
Proof. rewrite nth_repeat_zero. unfold float32_exact_limit. lia. Qed.

Lemma count_occ_copies (n : N) (w : string) :
  count_occ string_dec (copies n w) w = N.to_nat n.
Proof. unfold copies. now apply count_occ_repeat_eq. Qed.

Lemma vocabulary_single (w : string) : vocabulary [(w, 0%Z)].
Proof.
  unfold vocabulary. simpl. repeat split.
  - repeat constructor. intros [].
  - repeat constructor. intros [].
  - repeat constructor; lia.
Qed.

(** The count vector of [n] copies of the only word of a dictionary. *)
Lemma bag_of_words_copies (n : N) (w : string) :
  bag_of_words (copies n w) [(w, 0%Z)] false = Ok [clip (N.to_nat n)].
Proof.
  unfold bag_of_words.
  destruct (bow_loop_vocabulary [(w, 0%Z)] false (vocabulary_single w)
              (copies n w) (zeros (length [(w, 0%Z)])))
    as [bow [Hrun Hval]];
    [apply repeat_length | intros k; apply zeros_bounded |].
  rewrite Hrun. f_equal.
  assert (Hw : lookup w [(w, 0%Z)] = Some 0%Z)
    by (simpl; now rewrite String.eqb_refl).
  pose proof (Hval w 0%Z Hw) as H0.
  rewrite nth_repeat_zero, count_occ_copies in H0.
  change (Z.to_nat 0) with 0%nat in H0. rewrite Nat.add_0_l in H0.
  apply bow_loop_length in Hrun.
  destruct bow as [| x [| y bow]]; try discriminate.
  simpl in H0. now subst x.
Qed.

End BagOfWordsFacts.

(** C6 fails in count mode on a text with more than [2 ^ 24] occurrences of
    a word: the entry is a [torch.float] number that [+= 1] no longer moves
    once it holds [2 ^ 24 = 16777216].  On 16777217 copies of the only word
    of a vocabulary the entry is 16777216, not the number of occurrences. *)
Lemma bag_of_words_count_counterexample :
  DataProcessing.vocabulary [("w"%string, 0%Z)] /\
  exists bow,
    DataProcessing.bag_of_words (DataProcessing.copies 16777217 "w")
                                [("w"%string, 0%Z)] false = Ok bow /\
    N.of_nat (nth 0 bow 0%nat) = 16777216%N /\
    N.of_nat (count_occ string_dec (DataProcessing.copies 16777217 "w")
                        "w"%string) = 16777217%N.
Proof.
  split; [apply vocabulary_single |].
  exists [DataProcessing.clip (N.to_nat 16777217)].
  split; [apply bag_of_words_copies |]. split.
  - cbn [nth]. rewrite clip_large.
    + unfold DataProcessing.float32_exact_limit. lia.
    + unfold DataProcessing.float32_exact_limit. lia.
  - rewrite count_occ_copies. lia.
Qed.

(** C6, amended. On a vocabulary of the data model, [bag_of_words] always
    returns a vector as long as the vocabulary (empty for the empty
    vocabulary); in binary mode entry [k] is 1 when the word of index [k]
    occurs in the text and 0 otherwise, in count mode it is the number of
    occurrences of that word when that number is at most [2 ^ 24] and
    [2 ^ 24] otherwise; and a token that is not in the vocabulary changes
    nothing: the call returns what it returns without that token. *)
Theorem bag_of_words_vocabulary
  (vocab : DataProcessing.Vocab) (binary : bool) :
  DataProcessing.vocabulary vocab ->
  (forall text : list string,
      exists bow,
        DataProcessing.bag_of_words text vocab binary = Ok bow /\
        length bow = length vocab /\
        (forall k, (k < length vocab)%nat ->
           exists w,
             DataProcessing.lookup w vocab = Some (Z.of_nat k) /\
             nth k bow 0%nat =
             if binary
             then (if in_dec string_dec w text then 1%nat else 0%nat)
             else DataProcessing.clip (count_occ string_dec text w))) /\
  (forall (t1 t2 : list string) (w : string),
      DataProcessing.lookup w vocab = None ->
      DataProcessing.bag_of_words (t1 ++ w :: t2) vocab binary =
      DataProcessing.bag_of_words (t1 ++ t2) vocab binary).
Proof.
  intros Hv. split.
  - intros text. unfold DataProcessing.bag_of_words.
    assert (Hz : length (DataProcessing.zeros (length vocab)) = length vocab)
      by apply repeat_length.
    destruct (bow_loop_vocabulary vocab binary Hv text _ Hz
                (zeros_bounded (length vocab)))
      as [bow [Hrun Hval]].
    exists bow. split; [assumption |]. split.
    + apply bow_loop_length in Hrun. now rewrite Hrun.
    + intros k Hk. destruct (vocabulary_onto vocab k Hv Hk) as [w Hw].
      exists w. split; [assumption |].
      pose proof (Hval _ _ Hw) as H. rewrite Nat2Z.id in H. rewrite H.
      rewrite nth_repeat_zero. reflexivity.
  - intros t1 t2 w Hw. unfold DataProcessing.bag_of_words.
    now apply bow_loop_oov.
Qed.

(** C6 at the vocabulary of the end-to-end example and a text with a
    repeated and an unknown token. *)
Lemma bag_of_words_vocabulary_witness :
  DataProcessing.vocabulary EndToEnd.vocab /\
  exists bow,
    DataProcessing.bag_of_words ["good"; "film"; "good"; "movie"]%string
                                EndToEnd.vocab false = Ok bow /\
    length bow = length EndToEnd.vocab.
Proof.
  assert (Hv : DataProcessing.vocabulary EndToEnd.vocab).
  { unfold DataProcessing.vocabulary, EndToEnd.vocab. simpl. repeat split.
    - repeat constructor; simpl; intuition discriminate.
    - repeat constructor; simpl; intuition discriminate.
    - repeat constructor; lia. }
  split; [exact Hv |].
  destruct (proj1 (bag_of_words_vocabulary _ false Hv)
              ["good"; "film"; "good"; "movie"]%string)
    as [bow (Hrun & Hlen & _)].
  exists bow. split; assumption.
Defined.

Section ConcatenationFacts.

Import DataProcessing.

Lemma vadd_length (a b : list nat) :
  length a = length b -> length (vadd a b) = length b.
Proof.
  revert b. induction a as [| x a IH]; intros [| y b]; simpl; auto.
Qed.

Lemma vadd_nth (a b : list nat) (k : nat) :
  length a = length b ->
  nth k (vadd a b) 0%nat = (nth k a 0 + nth k b 0)%nat.
Proof.
  revert b k. induction a as [| x a IH]; intros [| y b] k; simpl;
    try discriminate.
  - now destruct k.
  - intros H. destruct k as [| k]; [reflexivity |]. apply IH. lia.
Qed.

Lemma vadd_update (a b : list nat) (k v : nat) :
  length a = length b ->
  update k (nth k a 0 + v)%nat (vadd a b) = vadd a (update k v b).
Proof.
  revert b k. induction a as [| x a IH]; intros [| y b] k; simpl;
    try discriminate; [reflexivity |].
  intros H. destruct k as [| k]; simpl; [reflexivity |].
  f_equal. apply IH. lia.
Qed.

Lemma vadd_zeros (a : list nat) : vadd a (zeros (length a)) = a.
Proof.
  induction a as [| x a IH]; simpl; [reflexivity |].
  rewrite Nat.add_0_r. f_equal. exact IH.
Qed.

Lemma clipped_sum_length (a b : list nat) :
  length a = length b -> length (clipped_sum a b) = length b.
Proof.
  intros H. unfold clipped_sum. rewrite length_map. now apply vadd_length.
Qed.

Lemma clipped_sum_nth (a b : list nat) (k : nat) :
  length a = length b ->
  nth k (clipped_sum a b) 0%nat = clip (nth k a 0 + nth k b 0)%nat.
Proof.
  intros H. unfold clipped_sum.
  change 0%nat with (clip 0) at 1. rewrite map_nth. f_equal.
  now apply vadd_nth.
Qed.

Lemma clipped_sum_update (a b : list nat) (k v : nat) :
  length a = length b ->
  update k (clip (nth k a 0 + v)%nat) (clipped_sum a b) =
  clipped_sum a (update k v b).
Proof.
  intros H. unfold clipped_sum.
  now rewrite <- (vadd_update _ _ _ _ H), map_update.
Qed.

Lemma clipped_sum_zeros (a : list nat) :
  (forall k, (N.of_nat (nth k a 0%nat) <= float32_exact_limit)%N) ->
  clipped_sum a (zeros (length a)) = a.
Proof.
  intros H. unfold clipped_sum. rewrite vadd_zeros.
  apply nth_ext with (d := 0%nat) (d' := 0%nat); [apply length_map |].
  intros k _. change 0%nat with (clip 0) at 1. rewrite map_nth.
  apply clip_small, H.
Qed.

Lemma clip_add_succ (a c : nat) :
  clip (S (a + c)) = clip (a + float32_succ c).
Proof.
  destruct (N.lt_ge_cases (N.of_nat c) float32_exact_limit) as [H | H].
  - rewrite float32_succ_exact by assumption. f_equal. lia.
  - rewrite float32_succ_stuck by assumption.
    rewrite !clip_large by lia. reflexivity.
Qed.

(** In count mode the loop started on the clipped sum of [a] and [c] ends on
    the clipped sum of [a] and the result of the loop started on [c]. *)
Lemma bow_loop_count_shift (text : list string) (vocab : Vocab)
  (a c : list nat) :
  length a = length c ->
  bow_loop text vocab false (clipped_sum a c) =
  fmap (clipped_sum a) (bow_loop text vocab false c).
Proof.
  revert c. induction text as [| w text IH]; intros c Hlen; simpl;
    [reflexivity |].
  destruct (lookup w vocab) as [idx |]; [| now apply IH].
  rewrite (clipped_sum_length _ _ Hlen).
  destruct (tensor_index (length c) idx) as [k | e]; [| reflexivity].
  rewrite (clipped_sum_nth _ _ k Hlen), float32_succ_clip, clip_add_succ,
    (clipped_sum_update _ _ _ _ Hlen).
  apply IH. now rewrite update_length.
Qed.

Lemma copies_app (n m : N) (w : string) :
  copies n w ++ copies m w = copies (n + m) w.
Proof.
  unfold copies. now rewrite N2Nat.inj_add, repeat_app.
Qed.

(** In binary mode the entries that are 1 stay 1, and every token of the
    text that the vocabulary knows has its entry at 1 in the end. *)
Lemma bow_loop_binary_marks (text : list string) (vocab : Vocab)
  (bow bow' : list nat) :
  bow_loop text vocab true bow = Ok bow' ->
  (forall k, nth k bow 0%nat = 1%nat -> nth k bow' 0%nat = 1%nat) /\
  (forall w idx, In w text -> lookup w vocab = Some idx ->
     exists k, tensor_index (length bow') idx = Ok k /\
               nth k bow' 0%nat = 1%nat).
Proof.
  revert bow. induction text as [| x text IH]; intros bow; simpl.
  - intros H. injection H as <-. split; [auto | intros ? ? []].
  - destruct (lookup x vocab) as [idx |] eqn:Hx.
    + destruct (tensor_index (length bow) idx) as [k | e] eqn:Hk;
        [| discriminate].
      intros Hrun. pose proof (bow_loop_length _ _ _ _ _ Hrun) as Hlen.
      rewrite update_length in Hlen.
      destruct (IH _ Hrun) as [Hkeep Hmark].
      pose proof (tensor_index_lt _ _ _ Hk) as Hklt.
      split.
      * intros j Hj. apply Hkeep. rewrite nth_update by assumption.
        now destruct (Nat.eqb j k).
      * intros w i [-> | Hin] Hw; [| now apply (Hmark w)].
        assert (i = idx) by congruence. subst i.
        exists k. rewrite Hlen. split; [assumption |].
        apply Hkeep. rewrite nth_update by assumption.
        now rewrite Nat.eqb_refl.
    + intros Hrun. destruct (IH _ Hrun) as [Hkeep Hmark].
      split; [assumption |].
      intros w i [-> | Hin] Hw; [congruence | now apply (Hmark w)].
Qed.

(** In binary mode a text whose known tokens are all marked changes
    nothing. *)
Lemma bow_loop_binary_fixed (text : list string) (vocab : Vocab)
  (bow : list nat) :
  (forall w idx, In w text -> lookup w vocab = Some idx ->
     exists k, tensor_index (length bow) idx = Ok k /\
               nth k bow 0%nat = 1%nat) ->
  bow_loop text vocab true bow = Ok bow.
Proof.
  induction text as [| x text IH]; intros H; simpl; [reflexivity |].
  destruct (lookup x vocab) as [idx |] eqn:Hx.
  - destruct (H x idx (or_introl eq_refl) Hx) as [k [Hk H1]].
    rewrite Hk, <- H1, update_same. apply IH.
    intros w i Hin. apply H. now right.
  - apply IH. intros w i Hin. apply H. now right.
Qed.

End ConcatenationFacts.

(** C10 fails on counts beyond [2 ^ 24]: with the single word "w" in the
    vocabulary, [2 ^ 24] copies of it followed by 2 more give the entry
    16777216, while the entries of the two parts add up to 16777218. *)
Lemma bag_of_words_concatenation_counterexample :
  exists b1 b2 b,
    DataProcessing.bag_of_words (DataProcessing.copies 16777216 "w")
                                [("w"%string, 0%Z)] false = Ok b1 /\
    DataProcessing.bag_of_words (DataProcessing.copies 2 "w")
                                [("w"%string, 0%Z)] false = Ok b2 /\
    DataProcessing.bag_of_words
      (DataProcessing.copies 16777216 "w" ++ DataProcessing.copies 2 "w")
      [("w"%string, 0%Z)] false = Ok b /\
    N.of_nat (nth 0 b 0%nat) = 16777216%N /\
    N.of_nat (nth 0 (DataProcessing.vadd b1 b2) 0%nat) = 16777218%N.
Proof.
  exists [DataProcessing.clip (N.to_nat 16777216)],
         [DataProcessing.clip (N.to_nat 2)],
         [DataProcessing.clip (N.to_nat (16777216 + 2))].
  split; [apply bag_of_words_copies |].
  split; [apply bag_of_words_copies |].
  split; [rewrite copies_app; apply bag_of_words_copies |].
  cbn [nth DataProcessing.vadd].
  rewrite (clip_small (N.to_nat 16777216)), (clip_small (N.to_nat 2)),
    (clip_large (N.to_nat (16777216 + 2)));
    unfold DataProcessing.float32_exact_limit; lia.
Qed.

(** C10, amended. For every vocabulary and all token sequences, the count
    vector of a concatenation is the element-wise sum of the count vectors
    of its two parts with every entry clipped at [2 ^ 24], hence their sum
    as long as no entry of the sum passes [2 ^ 24] (and the call raises
    exactly when one of the two parts raises); and the binary vector of a
    text followed by itself is the binary vector of the text. *)
Theorem bag_of_words_concatenation
  (vocab : DataProcessing.Vocab) (t1 t2 : list string) :
  DataProcessing.bag_of_words (t1 ++ t2) vocab false =
  lift2 DataProcessing.clipped_sum
        (DataProcessing.bag_of_words t1 vocab false)
        (DataProcessing.bag_of_words t2 vocab false)
  /\
  (forall b1 b2,
      DataProcessing.bag_of_words t1 vocab false = Ok b1 ->
      DataProcessing.bag_of_words t2 vocab false = Ok b2 ->
      Forall (fun x => (N.of_nat x <= 16777216)%N)
             (DataProcessing.vadd b1 b2) ->
      DataProcessing.bag_of_words (t1 ++ t2) vocab false =
      Ok (DataProcessing.vadd b1 b2))
  /\
  DataProcessing.bag_of_words (t1 ++ t1) vocab true =
  DataProcessing.bag_of_words t1 vocab true.
Proof.
  assert (Hsum : DataProcessing.bag_of_words (t1 ++ t2) vocab false =
                 lift2 DataProcessing.clipped_sum
                   (DataProcessing.bag_of_words t1 vocab false)
                   (DataProcessing.bag_of_words t2 vocab false)).
  { unfold DataProcessing.bag_of_words. rewrite bow_loop_app. unfold lift2.
    destruct (DataProcessing.bow_loop t1 vocab false _) as [b1 | e] eqn:H1;
      simpl; [| reflexivity].
    pose proof (bow_loop_bounded _ _ _ _ _ (zeros_bounded (length vocab)) H1)
      as Hb.
    apply bow_loop_length in H1.
    unfold DataProcessing.zeros in H1. rewrite repeat_length in H1.
    rewrite <- (clipped_sum_zeros b1 Hb) at 1. rewrite H1.
    rewrite bow_loop_count_shift.
    - reflexivity.
    - rewrite H1. unfold DataProcessing.zeros. now rewrite repeat_length. }
  split; [exact Hsum |]. split.
  - intros b1 b2 H1 H2 Hb. rewrite Hsum, H1, H2. simpl. f_equal.
    unfold DataProcessing.clipped_sum.
    rewrite <- (map_id (DataProcessing.vadd b1 b2)) at 2.
    apply map_ext_in. intros x Hx. apply clip_small.
    rewrite Forall_forall in Hb. exact (Hb x Hx).
  - unfold DataProcessing.bag_of_words. rewrite bow_loop_app.
    destruct (DataProcessing.bow_loop t1 vocab true _) as [b1 | e] eqn:H1;
      simpl; [| reflexivity].
    apply bow_loop_binary_fixed. apply (bow_loop_binary_marks _ _ _ _ H1).
Qed.

(** * Properties of the classifier *)

Section PriorFacts.

Import Tensor Float NaiveBayesModel.
Open Scope R_scope.

Lemma dict_get_In (V : Type) (k : Z) (d : Dict V) :
  In k (map fst d) <-> exists v, dict_get k d = Some v.
Proof.
  induction d as [| [k' v'] d IH]; simpl.
  - split; [intros [] | intros [v H]; discriminate].
  - destruct (Z.eqb k k') eqn:E.
    + apply Z.eqb_eq in E. subst. split; eauto.
    + apply Z.eqb_neq in E. rewrite <- IH. split; [| tauto].
      intros [H | H]; [congruence | assumption].
Qed.

Lemma dict_get_In_snd (V : Type) (k : Z) (v : V) (d : Dict V) :
  dict_get k d = Some v -> In v (map snd d).
Proof.
  induction d as [| [k' v'] d IH]; simpl; [discriminate |].
  destruct (Z.eqb k k'); [| auto].
  intros H. injection H as ->. now left.
Qed.

Lemma dict_get_map (V W : Type) (f : V -> W) (k : Z) (d : Dict V) :
  dict_get k (map (fun p => (fst p, f (snd p))) d) =
  option_map f (dict_get k d).
Proof.
  induction d as [| [k' v'] d IH]; simpl; [reflexivity |].
  now destruct (Z.eqb k k').
Qed.

Lemma counter_add_keys (x : Z) (c : Dict nat) (k : Z) :
  In k (map fst (counter_add x c)) <-> k = x \/ In k (map fst c).
Proof.
  induction c as [| [k' n] c IH]; simpl; [intuition |].
  destruct (Z.eqb x k') eqn:E; simpl.
  - apply Z.eqb_eq in E. subst. intuition.
  - rewrite IH. intuition.
Qed.

Lemma counter_add_NoDup (x : Z) (c : Dict nat) :
  NoDup (map fst c) -> NoDup (map fst (counter_add x c)).
Proof.
  induction c as [| [k' n] c IH]; simpl.
  - intros _. constructor; [intros [] | constructor].
  - intros H. inversion H as [| ? ? Hk Hc]; subst.
    destruct (Z.eqb x k') eqn:E; simpl.
    + constructor; assumption.
    + apply Z.eqb_neq in E. constructor; [| now apply IH].
      rewrite counter_add_keys. intros [-> | H1]; [now apply E | now apply Hk].
Qed.

Lemma counter_add_get (x k : Z) (c : Dict nat) :
  dict_get k (counter_add x c) =
  if Z.eqb k x
  then Some (S (match dict_get x c with Some n => n | None => 0%nat end))
  else dict_get k c.
Proof.
  induction c as [| [k' n] c IH]; simpl.
  - now destruct (Z.eqb k x).
  - destruct (Z.eqb x k') eqn:E; simpl.
    + apply Z.eqb_eq in E. subst k'. now destruct (Z.eqb k x).
    + rewrite IH. destruct (Z.eqb k x) eqn:E1; [| reflexivity].
      apply Z.eqb_eq in E1. subst k. now rewrite E.
Qed.

Lemma counter_add_total (x : Z) (c : Dict nat) :
  list_sum (map snd (counter_add x c)) = S (list_sum (map snd c)).
Proof.
  induction c as [| [k' n] c IH]; simpl; [reflexivity |].
  destruct (Z.eqb x k'); simpl; [reflexivity |]. rewrite IH. lia.
Qed.

(** The counting loop, from any starting counter: the keys stay distinct, a
    key is present when it was or when the loop met it, and its count (0 when
    absent) grows by its number of occurrences. *)
Lemma Counter_fold (l : list Z) (c : Dict nat) :
  NoDup (map fst c) ->
  let r := fold_left (fun c x => counter_add x c) l c in
  NoDup (map fst r) /\
  (forall k, In k (map fst r) <-> In k (map fst c) \/ In k l) /\
  (forall k, match dict_get k r with Some n => n | None => 0%nat end =
             (match dict_get k c with Some n => n | None => 0%nat end
              + label_count k l)%nat) /\
  list_sum (map snd r) = (list_sum (map snd c) + length l)%nat.
Proof.
  revert c. induction l as [| x l IH]; intros c Hc; simpl.
  - repeat split; auto; try tauto; lia.
  - destruct (IH (counter_add x c) (counter_add_NoDup x c Hc))
      as (H1 & H2 & H3 & H4).
    split; [assumption |]. split; [| split].
    + intros k. rewrite H2, counter_add_keys. intuition.
    + intros k. rewrite H3, counter_add_get. unfold label_count. simpl.
      destruct (Z.eq_dec x k) as [-> | Hn].
      * rewrite Z.eqb_refl. lia.
      * replace (Z.eqb k x) with false; [reflexivity |].
        symmetry. apply Z.eqb_neq. congruence.
    + rewrite H4, counter_add_total. lia.
Qed.

Lemma round_half_even_error (n d : Z) :
  (0 < d)%Z -> Rabs (IZR (round_half_even n d) - IZR n / IZR d) <= 1 / 2.
Proof.
  intros Hd. unfold round_half_even.
  pose proof (Z.div_mod n d ltac:(lia)) as Hdm.
  pose proof (Z.mod_pos_bound n d Hd) as Hr.
  set (q := (n / d)%Z) in *. set (r := (n mod d)%Z) in *.
  assert (HD : 0 < IZR d) by (apply IZR_lt; assumption).
  assert (Hn : IZR n / IZR d = IZR q + IZR r / IZR d).
  { rewrite Hdm, plus_IZR, mult_IZR. field. lra. }
  assert (Hr0 : 0 <= IZR r) by (apply IZR_le; lia).
  assert (Hr1 : IZR r < IZR d) by (apply IZR_lt; lia).
  assert (Hfrac : 0 <= IZR r / IZR d < 1).
  { split.
    - apply Rmult_le_pos; [assumption |]. left. now apply Rinv_0_lt_compat.
    - apply Rmult_lt_reg_r with (r := IZR d); [assumption |].
      unfold Rdiv. rewrite Rmult_assoc, Rinv_l by lra. lra. }
  assert (Hhalf : forall c, (2 * r ?= d)%Z = c ->
            match c with
            | Lt => IZR r / IZR d <= 1 / 2
            | Gt => 1 / 2 <= IZR r / IZR d
            | Eq => IZR r / IZR d = 1 / 2
            end).
  { intros c Hc. destruct c.
    - apply Z.compare_eq in Hc.
      assert (E : IZR d = 2 * IZR r) by (rewrite <- Hc, mult_IZR; reflexivity).
      rewrite E. field. lra.
    - apply Z.compare_lt_iff in Hc.
      assert (E : 2 * IZR r < IZR d).
      { change 2 with (IZR 2). rewrite <- mult_IZR. now apply IZR_lt. }
      apply Rmult_le_reg_r with (r := IZR d); [assumption |].
      unfold Rdiv. rewrite Rmult_assoc, Rinv_l by lra. lra.
    - apply Z.compare_gt_iff in Hc.
      assert (E : IZR d < 2 * IZR r).
      { change 2 with (IZR 2). rewrite <- mult_IZR. now apply IZR_lt. }
      apply Rmult_le_reg_r with (r := IZR d); [assumption |].
      unfold Rdiv at 2. rewrite Rmult_assoc, Rinv_l by lra. lra. }
  specialize (Hhalf _ eq_refl).
  rewrite Hn.
  destruct (2 * r ?= d)%Z.
  - destruct (Z.even q); rewrite ?plus_IZR; apply Rabs_le; lra.
  - apply Rabs_le; lra.
  - rewrite plus_IZR. apply Rabs_le; lra.
Qed.


Lemma Rabs_le_bounds (a b : R) : Rabs a <= b -> - b <= a <= b.
Proof.
  intros H. pose proof (Rle_abs a) as H1. pose proof (Rle_abs (- a)) as H2.
  rewrite Rabs_Ropp in H2. lra.
Qed.

Lemma float_exponent_le_0 (n d : Z) :
  (0 < n)%Z -> (0 < d)%Z -> (n < 2 * d)%Z -> (exponent n d <= 0)%Z.
Proof.
  intros Hn Hd Hnd. unfold exponent.
  pose proof (Z.log2_spec n Hn) as [Hn1 Hn2].
  pose proof (Z.log2_spec d Hd) as [Hd1 Hd2].
  pose proof (Z.log2_nonneg n) as Hln. pose proof (Z.log2_nonneg d) as Hld.
  assert (Hk : (Z.log2 n - Z.log2 d <= 1)%Z).
  { assert (H : (2 ^ Z.log2 n < 2 ^ (Z.log2 d + 2))%Z).
    { replace (Z.log2 d + 2)%Z with (Z.succ (Z.log2 d) + 1)%Z by lia.
      rewrite (Z.pow_add_r 2 (Z.succ (Z.log2 d)) 1) by lia.
      change (2 ^ 1)%Z with 2%Z. lia. }
    apply Z.pow_lt_mono_r_iff in H; lia. }
  set (k := (Z.log2 n - Z.log2 d)%Z) in *.
  destruct (scaled n d k) as [n' d'] eqn:Hs.
  destruct (n' <? d')%Z eqn:Hlt; [lia |].
  destruct (Z.eq_dec k 1) as [E | E]; [| lia].
  exfalso. rewrite E in Hs. unfold scaled in Hs. simpl in Hs.
  injection Hs as <- <-. apply Z.ltb_ge in Hlt.
  change (2 ^ 1)%Z with 2%Z in Hlt. lia.
Qed.

Lemma round_half_even_nonneg (n d : Z) :
  (0 <= n)%Z -> (0 < d)%Z -> (0 <= round_half_even n d)%Z.
Proof.
  intros Hn Hd. unfold round_half_even.
  pose proof (Z.div_pos n d Hn Hd).
  destruct (2 * (n mod d) ?= d)%Z; [destruct (Z.even (n / d)) | |]; lia.
Qed.

Lemma pow2_pos (k : Z) : (0 <= k)%Z -> 0 < IZR (2 ^ k).
Proof. intros Hk. apply IZR_lt. apply Z.pow_pos_nonneg; lia. Qed.

(** Rounding a fraction below 2 to a format of precision [prec] gives a
    number with a negative exponent, not more than [2 ^ (- prec)] away. *)
Lemma round_error (prec emin n d : Z) :
  (2 <= prec)%Z -> (emin <= 1 - prec)%Z ->
  (0 <= n)%Z -> (0 < d)%Z -> (n < 2 * d)%Z ->
  (snd (round prec emin n d) < 0)%Z /\
  (0 <= fst (round prec emin n d))%Z /\
  Rabs (value (round prec emin n d) - IZR n / IZR d)
  <= / (2 * IZR (2 ^ (prec - 1))).
Proof.
  intros Hp He Hn Hd Hnd.
  pose proof (pow2_pos (prec - 1) ltac:(lia)) as Hpp.
  assert (Hbound : 0 <= / (2 * IZR (2 ^ (prec - 1)))).
  { left. apply Rinv_0_lt_compat. lra. }
  unfold round. destruct (n =? 0)%Z eqn:E0.
  - apply Z.eqb_eq in E0. subst n. simpl fst. simpl snd.
    split; [lia |]. split; [lia |].
    unfold value. simpl fst. simpl snd.
    replace (0 <=? emin)%Z with false by (symmetry; apply Z.leb_gt; lia).
    unfold Rdiv. rewrite !Rmult_0_l, Rminus_0_r, Rabs_R0. exact Hbound.
  - apply Z.eqb_neq in E0.
    pose proof (float_exponent_le_0 n d ltac:(lia) Hd Hnd) as Hex.
    set (e := Z.max (exponent n d - (prec - 1)) emin).
    assert (Hel : (e <= 1 - prec)%Z) by (unfold e; lia).
    unfold scaled.
    replace (0 <=? e)%Z with false by (symmetry; apply Z.leb_gt; lia).
    simpl fst. simpl snd.
    split; [lia |]. split.
    + apply round_half_even_nonneg; [| assumption].
      apply Z.mul_nonneg_nonneg; [assumption |].
      apply Z.pow_nonneg. lia.
    + unfold value. simpl fst. simpl snd.
      replace (0 <=? e)%Z with false by (symmetry; apply Z.leb_gt; lia).
      pose proof (round_half_even_error (n * 2 ^ (- e)) d Hd) as Herr.
      set (m := round_half_even (n * 2 ^ (- e)) d) in *.
      pose proof (pow2_pos (- e) ltac:(lia)) as HP.
      assert (HPge : IZR (2 ^ (prec - 1)) <= IZR (2 ^ (- e))).
      { apply IZR_le. apply Z.pow_le_mono_r; lia. }
      set (P := IZR (2 ^ (- e))) in *.
      assert (HD : 0 < IZR d) by (now apply IZR_lt).
      rewrite mult_IZR in Herr. fold P in Herr.
      replace (IZR m / P - IZR n / IZR d)
        with ((IZR m - IZR n * P / IZR d) * / P) by (field; lra).
      rewrite Rabs_mult, (Rabs_pos_eq (/ P))
        by (left; now apply Rinv_0_lt_compat).
      apply Rle_trans with (1 / 2 * / P).
      * apply Rmult_le_compat_r; [left; now apply Rinv_0_lt_compat |].
        exact Herr.
      * replace (1 / 2 * / P) with (/ (2 * P)) by (field; lra).
        apply Rinv_le_contravar; lra.
Qed.

(** A stored prior is within [2 ^ (- 23)] of the quotient it rounds. *)
Lemma prior_tensor_error (count total : nat) :
  (0 < total)%nat -> (count <= total)%nat ->
  Rabs (prior_tensor count total - INR count / INR total) <= / 8388608.
Proof.
  intros Ht Hc. unfold prior_tensor, float64_div, to_float32.
  destruct (round_error 53 (-1074) (Z.of_nat count) (Z.of_nat total))
    as (Hs & Hf & Herr); try lia.
  set (x := round 53 (-1074) (Z.of_nat count) (Z.of_nat total)) in *.
  rewrite <- !INR_IZR_INZ in Herr.
  assert (Hq : 0 <= INR count / INR total <= 1).
  { assert (HT : 0 < INR total) by (apply lt_0_INR; assumption).
    pose proof (pos_INR count) as HC.
    assert (HCT : INR count <= INR total) by (now apply le_INR).
    split.
    - apply Rmult_le_pos; [assumption |]. left. now apply Rinv_0_lt_compat.
    - apply Rmult_le_reg_r with (r := INR total); [assumption |].
      unfold Rdiv. rewrite Rmult_assoc, Rinv_l by lra. lra. }
  unfold scaled.
  replace (0 <=? - snd x)%Z with true by (symmetry; apply Z.leb_le; lia).
  assert (Hv : value x = IZR (fst x) / IZR (1 * 2 ^ (- snd x))).
  { unfold value.
    replace (0 <=? snd x)%Z with false by (symmetry; apply Z.leb_gt; lia).
    now rewrite Z.mul_1_l. }
  pose proof (pow2_pos (- snd x) ltac:(lia)) as HP.
  assert (HP' : 0 < IZR (1 * 2 ^ (- snd x))) by (now rewrite Z.mul_1_l).
  change (2 ^ (53 - 1))%Z with 4503599627370496%Z in Herr.
  assert (Hlt2 : (fst x < 2 * (1 * 2 ^ (- snd x)))%Z).
  { apply lt_IZR. rewrite mult_IZR.
    apply Rabs_le_bounds in Herr.
    assert (Hx : value x < 2) by lra.
    rewrite Hv in Hx.
    apply Rmult_lt_compat_r with (r := IZR (1 * 2 ^ (- snd x))) in Hx;
      [| assumption].
    unfold Rdiv in Hx. rewrite Rmult_assoc, Rinv_l in Hx by lra. lra. }
  assert (Hd2 : (0 < 1 * 2 ^ (- snd x))%Z) by (apply lt_IZR; exact HP').
  destruct (round_error 24 (-149) (fst x) (1 * 2 ^ (- snd x))
              ltac:(lia) ltac:(lia) Hf Hd2 Hlt2) as (_ & _ & Herr2).
  rewrite <- Hv in Herr2.
  change (2 ^ (24 - 1))%Z with 8388608%Z in Herr2.
  apply Rabs_le_bounds in Herr. apply Rabs_le_bounds in Herr2.
  apply Rabs_le. lra.
Qed.


(** One half is a [torch.float] number. *)
Lemma prior_tensor_half : prior_tensor 1 2 = 1 / 2.
Proof.
  unfold prior_tensor.
  replace (to_float32 (float64_div (Z.of_nat 1) (Z.of_nat 2)))
    with (8388608%Z, (-24)%Z) by (vm_compute; reflexivity).
  unfold value. cbn [fst snd Z.leb Z.compare Z.opp].
  change (2 ^ 24)%Z with 16777216%Z. lra.
Qed.

(** One tenth is not: the stored prior is [13421773 / 2 ^ 27]. *)
Lemma prior_tensor_tenth : prior_tensor 1 10 = 13421773 / 134217728.
Proof.
  unfold prior_tensor.
  replace (to_float32 (float64_div (Z.of_nat 1) (Z.of_nat 10)))
    with (13421773%Z, (-27)%Z) by (vm_compute; reflexivity).
  unfold value. cbn [fst snd Z.leb Z.compare Z.opp].
  change (2 ^ 27)%Z with 134217728%Z. reflexivity.
Qed.

Lemma list_sum_member (l : list nat) (n : nat) :
  In n l -> (n <= list_sum l)%nat.
Proof.
  induction l as [| x l IH]; simpl; [intros [] |].
  intros [-> | H]; [lia |]. apply IH in H. lia.
Qed.

(** The sum of the stored priors, for counts that are at most [total]: each
    prior is off its quotient by at most [2 ^ (- 23)]. *)
Lemma rsum_priors (c : Dict nat) (total : nat) :
  (0 < total)%nat ->
  (forall n, In n (map snd c) -> (n <= total)%nat) ->
  Rabs (rsum (map snd (map (fun p => (fst p, prior_tensor (snd p) total)) c))
        - INR (list_sum (map snd c)) / INR total)
  <= INR (length c) / 8388608.
Proof.
  intros Ht. induction c as [| [k m] c IH]; intros Hle.
  - simpl. unfold Rdiv. rewrite !Rmult_0_l, Rminus_0_r, Rabs_R0. lra.
  - change (list_sum (map snd ((k, m) :: c)))
      with (m + list_sum (map snd c))%nat.
    cbn [map fst snd rsum fold_right length].
    fold (rsum
            (map snd (map (fun p => (fst p, prior_tensor (snd p) total)) c))).
    assert (IH' := IH (fun n H => Hle n (or_intror H))).
    pose proof (prior_tensor_error m total Ht (Hle m (or_introl eq_refl)))
      as Hm.
    apply Rabs_le_bounds in IH'. apply Rabs_le_bounds in Hm.
    rewrite plus_INR, S_INR. apply Rabs_le. unfold Rdiv in *. lra.
Qed.

End PriorFacts.

(** C5 fails on the sum: a prior is stored as a [torch.float] number, the
    rounding of the quotient, and ten priors of one tenth are ten times
    [13421773 / 2 ^ 27], which add up to more than 1. *)
Lemma estimate_class_priors_counterexample :
  [0; 1; 2; 3; 4; 5; 6; 7; 8; 9]%Z <> [] /\
  NaiveBayesModel.dict_get 0%Z
    (NaiveBayesModel.estimate_class_priors [0; 1; 2; 3; 4; 5; 6; 7; 8; 9]%Z)
  = Some (13421773 / 134217728)%R /\
  Tensor.rsum
    (map snd
       (NaiveBayesModel.estimate_class_priors
          [0; 1; 2; 3; 4; 5; 6; 7; 8; 9]%Z))
  = (134217730 / 134217728)%R /\
  (134217730 / 134217728 <> 1)%R.
Proof.
  split; [discriminate |].
  unfold NaiveBayesModel.estimate_class_priors.
  cbn [NaiveBayesModel.Counter fold_left NaiveBayesModel.counter_add Z.eqb
       Pos.eqb map fst snd length NaiveBayesModel.dict_get Tensor.rsum
       fold_right].
  rewrite prior_tensor_tenth. split; [reflexivity |]. split; lra.
Qed.

(** C5, amended. For a non-empty label sequence the class priors have one
    entry for each distinct label that occurs and no other entry; the entry
    of a label is the number of examples with that label divided by the
    number of examples, rounded to a [torch.float] number, hence within
    [2 ^ (- 23)] of the quotient; and the priors sum to 1 up to
    [2 ^ (- 23)] per class. *)
Theorem estimate_class_priors_spec (labels : list Z) :
  labels <> [] ->
  let priors := NaiveBayesModel.estimate_class_priors labels in
  NoDup (map fst priors) /\
  (forall c, In c (map fst priors) <-> In c labels) /\
  (forall c, In c labels ->
     exists p,
       NaiveBayesModel.dict_get c priors = Some p /\
       p = Float.value
             (Float.to_float32
                (Float.float64_div
                   (Z.of_nat (NaiveBayesModel.label_count c labels))
                   (Z.of_nat (length labels)))) /\
       (Rabs (p - INR (NaiveBayesModel.label_count c labels)
                  / INR (length labels)) <= / 8388608)%R) /\
  (Rabs (Tensor.rsum (map snd priors) - 1)
   <= INR (length priors) / 8388608)%R.
Proof.
  intros Hne priors.
  destruct (Counter_fold labels [] (NoDup_nil _)) as (H1 & H2 & H3 & H4).
  fold (NaiveBayesModel.Counter labels) in H1, H2, H3, H4.
  assert (Hkeys : map fst priors = map fst (NaiveBayesModel.Counter labels)).
  { unfold priors, NaiveBayesModel.estimate_class_priors.
    rewrite map_map. reflexivity. }
  assert (Hpos : (0 < length labels)%nat).
  { destruct labels; [contradiction | simpl; lia]. }
  simpl in H4.
  assert (Hle : forall n,
             In n (map snd (NaiveBayesModel.Counter labels)) ->
             (n <= length labels)%nat).
  { intros n Hn. rewrite <- H4. now apply list_sum_member. }
  split; [now rewrite Hkeys |]. split; [| split].
  - intros c. rewrite Hkeys, H2. simpl. tauto.
  - intros c Hc. unfold priors, NaiveBayesModel.estimate_class_priors.
    rewrite dict_get_map
      with (f := fun n => NaiveBayesModel.prior_tensor n (length labels)).
    assert (Hin : In c (map fst (NaiveBayesModel.Counter labels))).
    { apply H2. now right. }
    apply dict_get_In in Hin as [n Hn]. specialize (H3 c).
    rewrite Hn in H3. simpl in H3. rewrite Hn. simpl. subst n.
    eexists. split; [reflexivity |]. split; [reflexivity |].
    apply prior_tensor_error; [assumption |].
    apply Hle. apply dict_get_In_snd in Hn. exact Hn.
  - unfold priors at 2. unfold NaiveBayesModel.estimate_class_priors.
    rewrite length_map.
    pose proof (rsum_priors (NaiveBayesModel.Counter labels) (length labels)
                  Hpos Hle) as Hsum.
    rewrite H4 in Hsum.
    replace (INR (length labels) / INR (length labels))%R with 1%R in Hsum.
    + exact Hsum.
    + field. apply not_0_INR. lia.
Qed.

(** Two labels out of three equal: the priors of two thirds and one third
    add up to 1 within two times [2 ^ (- 23)]. *)
Lemma estimate_class_priors_spec_witness :
  [2; 7; 2]%Z <> [] /\
  (Rabs (Tensor.rsum
           (map snd (NaiveBayesModel.estimate_class_priors [2; 7; 2]%Z)) - 1)
   <= INR (length (NaiveBayesModel.estimate_class_priors [2; 7; 2]%Z))
      / 8388608)%R.
Proof.
  assert (H : [2; 7; 2]%Z <> []) by discriminate.
  split; [exact H |].
  exact (proj2 (proj2 (proj2 (estimate_class_priors_spec _ H)))).
Defined.

Section ConditionalFacts.

Import Tensor NaiveBayesModel.
Open Scope R_scope.

Lemma xdiv_fin (a b : R) : b <> 0 -> xdiv (Fin a) (Fin b) = Fin (a / b).
Proof.
  intros Hb. simpl. destruct (Req_dec_T b 0); [contradiction | reflexivity].
Qed.

Lemma mapM_total (A B : Type) (f : A -> result B) (g : A -> B) (l : list A) :
  (forall a, In a l -> f a = Ok (g a)) -> mapM f l = Ok (map g l).
Proof.
  induction l as [| a l IH]; intros H; simpl; [reflexivity |].
  rewrite (H a (or_introl eq_refl)). simpl.
  rewrite IH; [reflexivity |]. intros b Hb. apply H. now right.
Qed.

Lemma dict_get_tabulate (V : Type) (F : Z -> V) (l : list Z) (c : Z) :
  dict_get c (map (fun k => (k, F k)) l) =
  if in_dec Z.eq_dec c l then Some (F c) else None.
Proof.
  induction l as [| k l IH]; simpl; [reflexivity |].
  destruct (Z.eqb c k) eqn:E.
  - apply Z.eqb_eq in E. subst k.
    destruct (Z.eq_dec c c); [reflexivity | contradiction].
  - apply Z.eqb_neq in E. rewrite IH.
    destruct (Z.eq_dec k c); [congruence |].
    now destruct (in_dec Z.eq_dec c l).
Qed.

Lemma insert_unique_In (x c : Z) (l : list Z) :
  In c (insert_unique x l) <-> c = x \/ In c l.
Proof.
  induction l as [| y l IH]; simpl; [intuition |].
  destruct (x <? y)%Z; [simpl; intuition |].
  destruct (x =? y)%Z eqn:E.
  - apply Z.eqb_eq in E. subst. simpl. intuition.
  - simpl. rewrite IH. intuition.
Qed.

Lemma unique_In (labels : list Z) (c : Z) :
  In c (unique labels) <-> In c labels.
Proof.
  induction labels as [| x l IH]; simpl; [tauto |].
  rewrite insert_unique_In, IH. intuition.
Qed.

Lemma nth_map_seq (A : Type) (f : nat -> A) (n i : nat) (d : A) :
  (i < n)%nat -> nth i (map f (seq 0 n)) d = f i.
Proof.
  intros Hi. rewrite nth_indep with (d' := f 0%nat)
    by (now rewrite length_map, length_seq).
  rewrite map_nth, seq_nth by assumption. reflexivity.
Qed.

(** The column sum over the rows that the mask selects is the word count of
    the class. *)
Lemma selected_word_count (features : list (list R)) (labels : list Z)
  (c : Z) (i : nat) :
  rsum (map (fun row => nth i row 0)
            (map snd (filter (fun p => Z.eqb (fst p) c)
                             (combine labels features)))) =
  word_count c i features labels.
Proof.
  revert labels. induction features as [| row features IH];
    intros [| l labels]; simpl; try reflexivity.
  destruct (Z.eqb l c); simpl; rewrite IH; [reflexivity | lra].
Qed.

Lemma smoothed_probs_selected (features : list (list R)) (labels : list Z)
  (delta : R) (c : Z) :
  smoothed_probs features
    (map snd (filter (fun p => Z.eqb (fst p) c) (combine labels features)))
    delta =
  map (fun i =>
         xdiv (Fin (word_count c i features labels + delta))
              (Fin (class_total c (shape1 features) features labels
                    + delta * INR (shape1 features))))
      (seq 0 (shape1 features)).
Proof.
  unfold smoothed_probs, sum_dim0, class_total.
  rewrite map_map.
  rewrite (map_ext _ _ (fun i => selected_word_count features labels c i)).
  apply map_ext. intros i. now rewrite selected_word_count.
Qed.

Lemma estimate_conditional_probabilities_total
  (features : list (list R)) (labels : list Z) (delta : R) :
  length features = length labels ->
  estimate_conditional_probabilities features labels delta =
  Ok (map (fun c =>
             (c, map (fun i =>
                        xdiv (Fin (word_count c i features labels + delta))
                             (Fin (class_total c (shape1 features)
                                     features labels
                                   + delta * INR (shape1 features))))
                     (seq 0 (shape1 features))))
          (unique labels)).
Proof.
  intros Hlen. unfold estimate_conditional_probabilities.
  apply mapM_total. intros c _. unfold mask_select.
  rewrite <- Hlen, Nat.eqb_refl. simpl.
  now rewrite smoothed_probs_selected.
Qed.

End ConditionalFacts.

Section EndToEndFacts.

Import DataProcessing Tensor NaiveBayesModel EndToEnd.
Open Scope R_scope.

Lemma example_fit : fit __init__ features labels 1 = (model, Ok tt).
Proof.
  unfold fit. rewrite estimate_conditional_probabilities_total by reflexivity.
  unfold estimate_class_priors, model, model_priors, model_vectors,
    class_total. simpl.
  rewrite prior_tensor_half.
  decide_reals.
  repeat f_equal; lra.
Qed.

Lemma example_fit_unsmoothed :
  fit __init__ features labels 0 = (unsmoothed_model, Ok tt).
Proof.
  unfold fit. rewrite estimate_conditional_probabilities_total by reflexivity.
  unfold estimate_class_priors, unsmoothed_model, class_total. simpl.
  rewrite prior_tensor_half.
  decide_reals.
  repeat f_equal; lra.
Qed.

Lemma example_log_posteriors :
  estimate_class_posteriors Tensor.exact model [1; 1; 0] =
  Ok [Fin log_posterior_1; Fin log_posterior_0].
Proof.
  unfold estimate_class_posteriors, model, log_posterior_1, log_posterior_0.
  simpl. decide_reals. reflexivity.
Qed.

Lemma example_log_posteriors_order : log_posterior_0 < log_posterior_1.
Proof.
  unfold log_posterior_0, log_posterior_1.
  assert (H : ln (1 / 5) < ln (2 / 5)) by (apply ln_increasing; lra).
  lra.
Qed.

Lemma example_predict : predict Tensor.exact model [1; 1; 0] = Ok 0%Z.
Proof.
  unfold predict. rewrite example_log_posteriors. simpl.
  pose proof example_log_posteriors_order.
  decide_reals. reflexivity.
Qed.

Lemma example_trained (delta : R) (m : NaiveBayes) :
  fit __init__ features labels delta = (m, Ok tt) ->
  trained_by features labels delta m.
Proof.
  intros H. split; [discriminate |]. split; [reflexivity |].
  split; [repeat constructor | now exists __init__].
Qed.

End EndToEndFacts.

(** C1. The end-to-end example, as the code runs it.  The two examples
    vectorise to [1,1,0] and [0,1,1]; [fit] with [delta = 1] stores the priors
    0.5 for class 0 and 0.5 for class 1 and the conditional vector
    [0.4, 0.4, 0.2] for class 1; [predict] on the vector of "good movie",
    computed with the kernels over the exact reals, returns 0, the position
    of class 1 in [class_priors], where the specification expects the
    label 1. *)
Theorem end_to_end_example :
  EndToEnd.features_of EndToEnd.examples EndToEnd.vocab
  = Ok EndToEnd.features /\
  EndToEnd.labels_of EndToEnd.examples = EndToEnd.labels /\
  fmap EndToEnd.to_tensor
       (DataProcessing.bag_of_words ["good"; "movie"]%string
                                    EndToEnd.vocab false)
  = Ok [1; 1; 0]%R /\
  NaiveBayesModel.fit NaiveBayesModel.__init__
    EndToEnd.features EndToEnd.labels 1%R = (EndToEnd.model, Ok tt) /\
  (exists priors,
      NaiveBayesModel.class_priors EndToEnd.model = Some priors /\
      map fst priors = [1; 0]%Z /\
      NaiveBayesModel.dict_get 0%Z priors = Some (1 / 2)%R /\
      NaiveBayesModel.dict_get 1%Z priors = Some (1 / 2)%R) /\
  (exists cps,
      NaiveBayesModel.conditional_probabilities EndToEnd.model = Some cps /\
      NaiveBayesModel.dict_get 1%Z cps =
      Some [Tensor.Fin (2 / 5); Tensor.Fin (2 / 5); Tensor.Fin (1 / 5)]%R) /\
  NaiveBayesModel.predict Tensor.exact EndToEnd.model [1; 1; 0]%R = Ok 0%Z /\
  NaiveBayesModel.predict Tensor.exact EndToEnd.model [1; 1; 0]%R <> Ok 1%Z.
Proof.
  split; [reflexivity |]. split; [reflexivity |]. split; [reflexivity |].
  split; [exact example_fit |]. split; [| split; [| split]].
  - eexists. split; [reflexivity |]. repeat split.
  - eexists. split; reflexivity.
  - exact example_predict.
  - rewrite example_predict. discriminate.
Qed.

(** C2. On the model of the end-to-end example, with the kernels over the
    exact reals, the class of maximal log-posterior is the label 1, first in
    [class_priors], and [predict] returns 0: the position of that class, not
    its label, and here the label of the class that loses. *)
Theorem argmax_position_is_not_the_label :
  NaiveBayesModel.trained_by EndToEnd.features EndToEnd.labels 1%R
                             EndToEnd.model /\
  option_map (map fst) (NaiveBayesModel.class_priors EndToEnd.model)
  = Some [1; 0]%Z /\
  NaiveBayesModel.estimate_class_posteriors Tensor.exact EndToEnd.model
    [1; 1; 0]%R
  = Ok [Tensor.Fin EndToEnd.log_posterior_1;
        Tensor.Fin EndToEnd.log_posterior_0] /\
  (EndToEnd.log_posterior_0 < EndToEnd.log_posterior_1)%R /\
  NaiveBayesModel.predict Tensor.exact EndToEnd.model [1; 1; 0]%R = Ok 0%Z.
Proof.
  split; [apply example_trained, example_fit |].
  split; [reflexivity |].
  split; [exact example_log_posteriors |].
  split; [exact example_log_posteriors_order | exact example_predict].
Qed.

(** C3. On a model that was never fitted, [predict] and [predict_proba]
    raise the not-trained exception, and [estimate_class_posteriors] raises
    nothing: its test against [None] does not see the empty dictionaries of
    the constructor, and it returns the empty tensor. *)
Theorem untrained_model_operations
  (K : Tensor.Kernels) (feature : list R) :
  NaiveBayesModel.predict K NaiveBayesModel.__init__ feature
  = Err NotTrained /\
  NaiveBayesModel.predict_proba K NaiveBayesModel.__init__ feature
  = Err NotTrained /\
  NaiveBayesModel.estimate_class_posteriors K NaiveBayesModel.__init__ feature
  = Ok [].
Proof. repeat split. Qed.

Section ArgmaxFacts.

Import Tensor NaiveBayesModel.
Open Scope R_scope.

Ltac order_cases :=
  simpl; decide_reals; intros;
  try reflexivity; try discriminate; try (exfalso; lra).

Lemma xgtb_irrefl (x : xreal) : xgtb x x = false.
Proof. destruct x; order_cases. Qed.

Lemma xgtb_above (x b y : xreal) :
  xgtb x b = true -> xgtb y b = false -> xgtb x y = true.
Proof. destruct x, b, y; order_cases. Qed.

Lemma xgtb_below (x b y : xreal) :
  xgtb x b = true -> xgtb y b = false -> xgtb y x = false.
Proof. destruct x, b, y; order_cases. Qed.

(** The scan of [argmax] keeps the first maximal entry of what it has seen:
    [pre] is the part already scanned, [bi] the position of its first
    maximum. *)
Lemma argmax_from_spec (t : list xreal) :
  forall (pre : list xreal) (bi : nat),
    (bi < length pre)%nat ->
    (forall i, (i < length pre)%nat ->
               xgtb (nth i pre NaN) (nth bi pre NaN) = false) ->
    (forall i, (i < bi)%nat ->
               xgtb (nth bi pre NaN) (nth i pre NaN) = true) ->
    let l := pre ++ t in
    let k := argmax_from bi (nth bi pre NaN) (length pre) t in
    (k < length l)%nat /\
    (forall i, (i < length l)%nat ->
               xgtb (nth i l NaN) (nth k l NaN) = false) /\
    (forall i, (i < k)%nat -> xgtb (nth k l NaN) (nth i l NaN) = true).
Proof.
  induction t as [| x t IH]; intros pre bi Hbi Hmax Hfirst; simpl.
  - rewrite app_nil_r. auto.
  - assert (Hx : nth (length pre) (pre ++ [x]) NaN = x).
    { rewrite app_nth2, Nat.sub_diag by lia. reflexivity. }
    assert (Hpre : forall i, (i < length pre)%nat ->
                             nth i (pre ++ [x]) NaN = nth i pre NaN).
    { intros i Hi. now apply app_nth1. }
    assert (Hlen : length (pre ++ [x]) = S (length pre)).
    { rewrite length_app. simpl. lia. }
    replace (pre ++ x :: t) with ((pre ++ [x]) ++ t)
      by (rewrite <- app_assoc; reflexivity).
    destruct (xgtb x (nth bi pre NaN)) eqn:E.
    + specialize (IH (pre ++ [x]) (length pre)). cbv zeta in IH.
      rewrite Hx, Hlen in IH. apply IH.
      * lia.
      * intros i Hi.
        destruct (Nat.eq_dec i (length pre)) as [-> | Hne].
        -- rewrite Hx. apply xgtb_irrefl.
        -- rewrite Hpre by lia. apply xgtb_below with (b := nth bi pre NaN);
             [assumption | apply Hmax; lia].
      * intros i Hi. rewrite Hpre by lia.
        apply xgtb_above with (b := nth bi pre NaN);
          [assumption | apply Hmax; lia].
    + specialize (IH (pre ++ [x]) bi). cbv zeta in IH.
      rewrite (Hpre bi Hbi), Hlen in IH. apply IH.
      * lia.
      * intros i Hi.
        destruct (Nat.eq_dec i (length pre)) as [-> | Hne].
        -- now rewrite Hx.
        -- rewrite Hpre by lia. apply Hmax. lia.
      * intros i Hi. rewrite !Hpre by lia. now apply Hfirst.
Qed.

(** The comparison of [argmax] decides the order [xreal_le]. *)
Lemma xgtb_false_le (x y : xreal) : xgtb x y = false <-> xreal_le x y.
Proof.
  destruct x, y; simpl; try tauto; try (split; [discriminate | tauto]).
  destruct (Rlt_dec r0 r); split; intros H; try discriminate; try lra;
    reflexivity.
Qed.

Lemma xgtb_true_lt (x y : xreal) : xgtb x y = true <-> xreal_lt y x.
Proof.
  unfold xreal_lt. rewrite <- !xgtb_false_le. split.
  - intros H. split; [| congruence].
    destruct (xgtb y x) eqn:E; [| reflexivity].
    destruct x, y; simpl in *; try discriminate.
    destruct (Rlt_dec r0 r), (Rlt_dec r r0); try discriminate. lra.
  - intros [_ H]. now destruct (xgtb x y).
Qed.

Lemma argmax_spec (t : list xreal) :
  t <> [] ->
  exists k,
    argmax t = Ok k /\ (k < length t)%nat /\
    (forall i, (i < length t)%nat -> xreal_le (nth i t NaN) (nth k t NaN)) /\
    (forall i, (i < k)%nat -> xreal_lt (nth i t NaN) (nth k t NaN)).
Proof.
  destruct t as [| x t]; [contradiction |]. intros _.
  exists (argmax_from 0 x 1 t). split; [reflexivity |].
  destruct (argmax_from_spec t [x] 0%nat) as (H1 & H2 & H3).
  - simpl. lia.
  - intros [| i] Hi; simpl in *; [apply xgtb_irrefl | lia].
  - intros i Hi. lia.
  - split; [exact H1 |]. split.
    + intros i Hi. apply xgtb_false_le. now apply H2.
    + intros i Hi. apply xgtb_true_lt. now apply H3.
Qed.

Lemma mapM_exists (A B : Type) (f : A -> result B) (P : B -> Prop)
  (l : list A) :
  (forall a, In a l -> exists b, f a = Ok b /\ P b) ->
  exists bs, mapM f l = Ok bs /\ length bs = length l /\ Forall P bs.
Proof.
  induction l as [| a l IH]; intros H; simpl.
  - exists []. auto.
  - destruct (H a (or_introl eq_refl)) as [b [Hb HP]].
    destruct IH as [bs [Hbs [Hlen HF]]].
    { intros a' Ha'. apply H. now right. }
    exists (b :: bs). rewrite Hb, Hbs. simpl. auto.
Qed.

Lemma tmul_same_length (K : Kernels) (a b : list xreal) :
  length a = length b ->
  tmul K a b = Ok (map (fun p => torch_mul K (fst p) (snd p)) (combine a b)).
Proof.
  intros H. unfold tmul. now rewrite H, Nat.eqb_refl.
Qed.

Lemma combine_map (A B C D : Type) (f : A -> C) (g : B -> D)
  (a : list A) (b : list B) :
  combine (map f a) (map g b) =
  map (fun p => (f (fst p), g (snd p))) (combine a b).
Proof.
  revert b. induction a as [| x a IH]; intros [| y b]; simpl;
    try reflexivity.
  now rewrite IH.
Qed.

(** The loop body of [estimate_class_posteriors] on a stored vector as long
    as the feature vector. *)
Lemma class_log_posterior_value (K : Kernels) (cps : Dict (list xreal))
  (feature : list R) (c : Z) (prior : R) (probs : list xreal) :
  dict_get c cps = Some probs -> length probs = length feature ->
  class_log_posterior K cps feature (c, prior) =
  Ok (log_posterior K feature prior probs).
Proof.
  intros Hget Hlen. unfold class_log_posterior, log_posterior. simpl.
  rewrite Hget, tmul_same_length by (rewrite !length_map; congruence).
  simpl. now rewrite combine_map, map_map.
Qed.

Lemma posteriors_unfold (K : Kernels) (model : NaiveBayes) (priors : Dict R)
  (cps : Dict (list xreal)) (feature : list R) :
  class_priors model = Some priors ->
  conditional_probabilities model = Some cps ->
  estimate_class_posteriors K model feature =
  mapM (class_log_posterior K cps feature) priors.
Proof.
  intros Hp Hc. unfold estimate_class_posteriors. rewrite Hp, Hc.
  clear Hp. induction priors as [| [c prior] priors IH]; simpl;
    [reflexivity |].
  now rewrite IH.
Qed.

(** On a state where every class of [class_priors] has a conditional vector
    as long as the feature vector, the log-posterior vector holds the
    log-posterior of every class, in the order of [class_priors]. *)
Lemma posteriors_fitted (K : Kernels) (model : NaiveBayes) (priors : Dict R)
  (cps : Dict (list xreal)) (feature : list R) :
  class_priors model = Some priors ->
  conditional_probabilities model = Some cps ->
  (forall c, In c (map fst priors) ->
     exists probs, dict_get c cps = Some probs /\
                   length probs = length feature) ->
  exists lp,
    estimate_class_posteriors K model feature = Ok lp /\
    Forall2 (fun item v =>
               exists probs,
                 dict_get (fst item) cps = Some probs /\
                 v = log_posterior K feature (snd item) probs)
            priors lp.
Proof.
  intros Hp Hc Hall. rewrite (posteriors_unfold K model _ _ feature Hp Hc).
  clear Hp. induction priors as [| [c prior] priors IH]; simpl.
  - exists []. split; [reflexivity | constructor].
  - destruct (Hall c (or_introl eq_refl)) as [probs [Hget Hlen]].
    destruct IH as [lp [Hlp HF]].
    { intros c' Hc'. apply Hall. now right. }
    rewrite (class_log_posterior_value K cps feature c prior probs Hget Hlen),
      Hlp.
    simpl. eexists. split; [reflexivity |].
    constructor; [| assumption]. exists probs. auto.
Qed.

(** What [fit] stores when it succeeds. *)
Lemma trained_by_model (features : list (list R)) (labels : list Z)
  (delta : R) (model : NaiveBayes) :
  trained_by features labels delta model ->
  labels <> [] /\
  class_priors model = Some (estimate_class_priors labels) /\
  conditional_probabilities model =
  Some (map (fun c =>
               (c, map (fun i =>
                          xdiv (Fin (word_count c i features labels + delta))
                               (Fin (class_total c (shape1 features)
                                       features labels
                                     + delta * INR (shape1 features))))
                       (seq 0 (shape1 features))))
            (unique labels)).
Proof.
  intros (Hne & Hlen & _ & self & Hfit). unfold fit in Hfit.
  rewrite estimate_conditional_probabilities_total in Hfit by assumption.
  injection Hfit as <-. simpl. repeat split.
  intros ->. destruct features; [contradiction | discriminate].
Qed.

Lemma estimate_class_priors_keys (labels : list Z) (c : Z) :
  In c (map fst (estimate_class_priors labels)) <-> In c labels.
Proof.
  unfold estimate_class_priors. rewrite map_map. simpl.
  destruct (Counter_fold labels [] (NoDup_nil _)) as (_ & H2 & _).
  fold (Counter labels) in H2. rewrite H2. simpl. tauto.
Qed.

(** On a trained model every class of [class_priors] has its conditional
    vector, of the width of the training matrix. *)
Lemma trained_posteriors (K : Kernels) (features : list (list R))
  (labels : list Z) (delta : R) (model : NaiveBayes) (feature : list R)
  (P : xreal -> Prop) :
  trained_by features labels delta model ->
  length feature = shape1 features ->
  (forall c prior probs,
      In (c, prior) (estimate_class_priors labels) ->
      dict_get c (match conditional_probabilities model with
                  | Some cps => cps
                  | None => []
                  end) = Some probs ->
      length probs = length feature ->
      P (torch_add K (torch_log K (Fin prior))
           (torch_sum K
              (map (fun p => torch_mul K (fst p) (snd p))
                   (combine (map Fin feature)
                            (map (torch_log K) probs)))))) ->
  exists lp,
    estimate_class_posteriors K model feature = Ok lp /\
    length lp = length (estimate_class_priors labels) /\
    Forall P lp /\
    (falsy (class_priors model) || falsy (conditional_probabilities model)
     = false)%bool.
Proof.
  intros Ht Hfeat HP.
  destruct (trained_by_model _ _ _ _ Ht) as (Hne & Hpri & Hcps).
  unfold estimate_class_posteriors. rewrite Hpri, Hcps. rewrite Hcps in HP.
  assert (Hsome : exists l0, In l0 labels).
  { destruct labels as [| l0 ?]; [contradiction |]. exists l0. now left. }
  destruct Hsome as [l0 Hl0].
  match goal with
  | |- exists lp, mapM ?f ?l = _ /\ _ =>
      destruct (mapM_exists _ _ f P l) as [lp (H1 & H2 & H3)]
  end.
  - intros [c prior] Hin.
    assert (Hc : In c labels).
    { apply estimate_class_priors_keys, in_map_iff. now exists (c, prior). }
    specialize (HP c prior). rewrite dict_get_tabulate in *.
    destruct (in_dec Z.eq_dec c (unique labels)) as [_ | Hn];
      [| exfalso; apply Hn; now apply unique_In].
    rewrite tmul_same_length
      by (now rewrite !length_map, length_seq).
    simpl. eexists. split; [reflexivity |].
    apply HP; [assumption | reflexivity |].
    now rewrite length_map, length_seq.
  - exists lp. repeat split; try assumption.
    apply orb_false_iff. split.
    + assert (Hk : In l0 (map fst (estimate_class_priors labels)))
        by (now apply estimate_class_priors_keys).
      simpl. destruct (estimate_class_priors labels); [contradiction |].
      reflexivity.
    + apply unique_In in Hl0. simpl.
      destruct (unique labels); [contradiction | reflexivity].
Qed.

End ArgmaxFacts.

(** C9. On a trained model, that is with both dictionaries filled and, for
    every class of [class_priors], a conditional vector as long as the
    feature vector (what a successful [fit] leaves for the vectors of the
    width of its matrix), [predict] returns an integer [k] with
    [0 <= k < len(class_priors)].  Entry [j] of the log-posterior vector is
    the log-posterior of the class at position [j] of [class_priors], as the
    kernels of torch compute it from the prior and the conditional vector of
    that class, and [k] is the position of the first entry that is greatest
    in the order of [torch.argmax]: every entry is at most entry [k], and
    every earlier entry is strictly below it.  The label values play no
    part: [k] is a position, not a key. *)
Theorem predict_returns_position
  (K : Tensor.Kernels) (model : NaiveBayesModel.NaiveBayes)
  (priors : NaiveBayesModel.Dict R)
  (cps : NaiveBayesModel.Dict (list Tensor.xreal)) (feature : list R) :
  NaiveBayesModel.class_priors model = Some priors ->
  NaiveBayesModel.conditional_probabilities model = Some cps ->
  priors <> [] ->
  (forall c, In c (map fst priors) ->
     exists probs,
       NaiveBayesModel.dict_get c cps = Some probs /\
       length probs = length feature) ->
  exists (k : nat) (lp : list Tensor.xreal),
    NaiveBayesModel.predict K model feature = Ok (Z.of_nat k) /\
    (k < length priors)%nat /\
    NaiveBayesModel.estimate_class_posteriors K model feature = Ok lp /\
    Forall2 (fun item v =>
               exists probs,
                 NaiveBayesModel.dict_get (fst item) cps = Some probs /\
                 v = NaiveBayesModel.log_posterior K feature (snd item) probs)
            priors lp /\
    (forall j, (j < length priors)%nat ->
       NaiveBayesModel.xreal_le (nth j lp Tensor.NaN) (nth k lp Tensor.NaN)) /\
    (forall j, (j < k)%nat ->
       NaiveBayesModel.xreal_lt (nth j lp Tensor.NaN) (nth k lp Tensor.NaN)).
Proof.
  intros Hp Hc Hne Hall.
  destruct (posteriors_fitted K model priors cps feature Hp Hc Hall)
    as [lp [Hlp HF]].
  pose proof (Forall2_length HF) as Hlen.
  assert (Hnil : lp <> []).
  { intros ->. destruct priors; [contradiction | discriminate]. }
  destruct (argmax_spec lp Hnil) as [k (Hk & Hlt & Hmax & Hfirst)].
  assert (Hguard : (NaiveBayesModel.falsy (NaiveBayesModel.class_priors model)
                    || NaiveBayesModel.falsy
                         (NaiveBayesModel.conditional_probabilities model)
                    = false)%bool).
  { rewrite Hp, Hc. apply orb_false_iff. split; simpl.
    - destruct priors; [contradiction | reflexivity].
    - destruct priors as [| [c prior] rest]; [contradiction |].
      destruct (Hall c (or_introl eq_refl)) as [probs [Hget _]].
      destruct cps; [discriminate | reflexivity]. }
  exists k, lp. split; [| split; [lia | split; [assumption |]]].
  - unfold NaiveBayesModel.predict. rewrite Hguard, Hlp. simpl.
    now rewrite Hk.
  - split; [assumption |]. split; [| assumption].
    intros j Hj. apply Hmax. lia.
Qed.

(** C9 at the end-to-end example, with the kernels over the exact reals:
    the position returned is below 2. *)
Lemma predict_returns_position_witness :
  EndToEnd.model_priors <> [] /\
  exists k,
    NaiveBayesModel.predict Tensor.exact EndToEnd.model [1; 1; 0]%R
    = Ok (Z.of_nat k) /\
    (k < length EndToEnd.model_priors)%nat.
Proof.
  assert (Hne : EndToEnd.model_priors <> []) by discriminate.
  split; [exact Hne |].
  assert (Hall : forall c, In c (map fst EndToEnd.model_priors) ->
            exists probs,
              NaiveBayesModel.dict_get c EndToEnd.model_vectors = Some probs /\
              length probs = length [1; 1; 0]%R).
  { intros c [<- | [<- | []]]; eexists; split; reflexivity. }
  destruct (predict_returns_position Tensor.exact EndToEnd.model
              EndToEnd.model_priors EndToEnd.model_vectors [1; 1; 0]%R
              eq_refl eq_refl Hne Hall)
    as [k [lp (Hrun & Hk & _)]].
  exists k. split; assumption.
Defined.

(** * Further properties of the data processing *)

Section VocabularyGrowth.

Import DataProcessing.

Lemma lookup_app_Some (w : string) (i : Z) (vocab ext : Vocab) :
  lookup w vocab = Some i -> lookup w (vocab ++ ext) = Some i.
Proof.
  induction vocab as [| [k v] vocab IH]; simpl; [discriminate |].
  destruct (String.eqb w k); auto.
Qed.

(** The loop of [build_vocab] only appends: what it adds are words of the
    text that the dictionary did not know. *)
Lemma build_words_extends (words : list string) (vocab : Vocab) (i : Z) :
  exists ext,
    fst (build_words words (vocab, i)) = vocab ++ ext /\
    forall w, In w (map fst ext) ->
              In w words /\ ~ In w (map fst vocab).
Proof.
  revert vocab i. induction words as [| x words IH]; intros vocab i; simpl.
  - exists []. split; [now rewrite app_nil_r | intros w []].
  - destruct (mem x vocab) eqn:Hm.
    + destruct (IH vocab i) as [ext [He Hext]]. exists ext.
      split; [assumption |]. intros w Hw. destruct (Hext w Hw). auto.
    + destruct (IH (vocab ++ [(x, i)]) (i + 1)%Z) as [ext [He Hext]].
      exists ((x, i) :: ext). split.
      * transitivity ((vocab ++ [(x, i)]) ++ ext); [exact He |].
        now rewrite <- app_assoc.
      * intros w [<- | Hw]; simpl.
        -- split; [now left |]. intros H. apply mem_true_iff in H. congruence.
        -- destruct (Hext w Hw) as [H1 H2]. split; [now right |].
           intros H. apply H2. rewrite map_app, in_app_iff. now left.
Qed.

Lemma build_vocab_words (examples : list SentimentExample) :
  build_vocab examples = fst (build_words (all_tokens examples) ([], 0%Z)).
Proof. unfold build_vocab. now rewrite build_examples_tokens. Qed.

Lemma all_tokens_app (e1 e2 : list SentimentExample) :
  all_tokens (e1 ++ e2) = all_tokens e1 ++ all_tokens e2.
Proof. unfold all_tokens. now rewrite map_app, concat_app. Qed.

Lemma build_vocab_keys (examples : list SentimentExample) (w : string) :
  In w (map fst (build_vocab examples)) <-> In w (all_tokens examples).
Proof.
  rewrite build_vocab_words. apply (inv_seen _ _ (vocab_inv_words _)).
Qed.

Lemma build_vocab_vocabulary (examples : list SentimentExample) :
  vocabulary (build_vocab examples).
Proof.
  rewrite build_vocab_words.
  destruct (vocab_inv_words (all_tokens examples)) as [_ Hd Hk _ _].
  set (vocab := fst (build_words (all_tokens examples) ([], 0%Z))) in *.
  split; [assumption |]. split.
  - rewrite Hd. apply Injective_map_NoDup; [| apply seq_NoDup].
    intros a b. apply Nat2Z.inj.
  - rewrite Hd. apply Forall_forall. intros i Hi.
    apply in_map_iff in Hi as [n [<- Hn]]. apply in_seq in Hn. lia.
Qed.

End VocabularyGrowth.

(** X1. A dictionary built by [build_vocab] is a vocabulary that
    [bag_of_words] accepts: vectorising any text against it, in either mode,
    raises nothing and gives one entry per word of the dictionary. *)
Theorem bag_of_words_on_built_vocab
  (examples : list DataProcessing.SentimentExample)
  (text : list string) (binary : bool) :
  exists bow,
    DataProcessing.bag_of_words text (DataProcessing.build_vocab examples)
                                binary = Ok bow /\
    length bow = length (DataProcessing.build_vocab examples).
Proof.
  pose proof (build_vocab_vocabulary examples) as Hv.
  unfold DataProcessing.bag_of_words.
  destruct (bow_loop_vocabulary _ binary Hv text
              (DataProcessing.zeros
                 (length (DataProcessing.build_vocab examples))))
    as [bow [Hrun _]]; [apply repeat_length | apply zeros_bounded |].
  exists bow. split; [assumption |].
  apply bow_loop_length in Hrun. rewrite Hrun. apply repeat_length.
Qed.

(** X2. Examples added at the end never renumber a word: the dictionary of
    [e1 ++ e2] is the dictionary of [e1] followed by new entries, every word
    of [e1] keeps its index, and nothing is added when [e2] brings no new
    word. *)
Theorem build_vocab_append
  (e1 e2 : list DataProcessing.SentimentExample) :
  exists ext,
    DataProcessing.build_vocab (e1 ++ e2)
    = DataProcessing.build_vocab e1 ++ ext /\
    (forall w i,
        DataProcessing.lookup w (DataProcessing.build_vocab e1) = Some i ->
        DataProcessing.lookup w (DataProcessing.build_vocab (e1 ++ e2))
        = Some i) /\
    (incl (DataProcessing.all_tokens e2) (DataProcessing.all_tokens e1) ->
     ext = []).
Proof.
  rewrite !build_vocab_words, all_tokens_app, build_words_app.
  destruct (DataProcessing.build_words (DataProcessing.all_tokens e1)
              ([], 0%Z)) as [v1 i1] eqn:E1.
  assert (Hkeys : forall w, In w (map fst v1) <->
                            In w (DataProcessing.all_tokens e1)).
  { intros w. rewrite <- build_vocab_keys, build_vocab_words, E1.
    reflexivity. }
  destruct (build_words_extends (DataProcessing.all_tokens e2) v1 i1)
    as [ext [He Hext]].
  exists ext. simpl. split; [assumption |]. split.
  - intros w i Hw. rewrite He. now apply lookup_app_Some.
  - intros Hincl. destruct ext as [| [w i] ext]; [reflexivity |].
    destruct (Hext w (or_introl eq_refl)) as [H1 H2].
    exfalso. apply H2, Hkeys, Hincl, H1.
Qed.

(** X3. The dictionary has one entry per distinct token of the examples. *)
Theorem build_vocab_size (examples : list DataProcessing.SentimentExample) :
  length (DataProcessing.build_vocab examples)
  = length (nodup string_dec (DataProcessing.all_tokens examples)).
Proof.
  rewrite <- (length_map fst (DataProcessing.build_vocab examples)).
  apply Permutation_length, NoDup_Permutation.
  - apply (build_vocab_vocabulary examples).
  - apply NoDup_nodup.
  - intros w. rewrite build_vocab_keys, nodup_In. reflexivity.
Qed.

Section VectoriserFacts.

Import DataProcessing.




(** Started on the clipped tensor, the binary loop ends on the clipped result
    of the count loop. *)
Lemma bow_loop_clip (vocab : Vocab) (text : list string) :
  forall bow,
    bow_loop text vocab true (map (Nat.min 1) bow) =
    fmap (map (Nat.min 1)) (bow_loop text vocab false bow).
Proof.
  induction text as [| x text IH]; intros bow; simpl; [reflexivity |].
  destruct (lookup x vocab) as [idx |]; [| apply IH].
  rewrite length_map.
  destruct (tensor_index (length bow) idx) as [k | e]; [| reflexivity].
  rewrite <- IH, map_update. f_equal. f_equal.
  unfold float32_succ.
  destruct (N.of_nat (nth k bow 0%nat) <? float32_exact_limit)%N eqn:E;
    [reflexivity |].
  apply N.ltb_ge in E. unfold float32_exact_limit in E.
  destruct (nth k bow 0%nat); [lia | reflexivity].
Qed.

Lemma update_swap (A : Type) (d : A) (f : A -> A) (j k : nat) (t : list A) :
  (j < length t)%nat -> (k < length t)%nat ->
  let step i b := update i (f (nth i b d)) b in
  step j (step k t) = step k (step j t).
Proof.
  intros Hj Hk step. unfold step.
  apply nth_ext with (d := d) (d' := d).
  - now rewrite !update_length.
  - intros n _. rewrite !nth_update by (now rewrite ?update_length).
    destruct (Nat.eqb_spec n j), (Nat.eqb_spec n k), (Nat.eqb_spec j k),
      (Nat.eqb_spec k j); subst; try reflexivity; congruence.
Qed.

Lemma same_outcome_refl (A : Type) (r : result A) : same_outcome r r.
Proof. destruct r; simpl; auto. Qed.

Lemma same_outcome_trans (A : Type) (r1 r2 r3 : result A) :
  same_outcome r1 r2 -> same_outcome r2 r3 -> same_outcome r1 r3.
Proof.
  destruct r1, r2, r3; simpl; try tauto; congruence.
Qed.

(** Two neighbouring tokens can be exchanged: the vector is the same, and
    when one of the two words falls outside the tensor both orders raise,
    each the exception of the word it meets first. *)
Lemma bow_loop_swap (vocab : Vocab) (binary : bool) (x y : string)
  (text : list string) (bow : list nat) :
  same_outcome (bow_loop (x :: y :: text) vocab binary bow)
               (bow_loop (y :: x :: text) vocab binary bow).
Proof.
  simpl.
  destruct (lookup x vocab) as [ix |], (lookup y vocab) as [iy |];
    try apply same_outcome_refl.
  destruct (tensor_index (length bow) ix) as [kx | ex] eqn:Hx,
           (tensor_index (length bow) iy) as [ky | ey] eqn:Hy.
  - pose proof (tensor_index_lt _ _ _ Hx) as Hkx.
    pose proof (tensor_index_lt _ _ _ Hy) as Hky.
    destruct binary; rewrite !update_length, ?Hx, ?Hy.
    + rewrite (update_swap nat 0%nat (fun _ => 1%nat) ky kx bow Hky Hkx).
      apply same_outcome_refl.
    + rewrite (update_swap nat 0%nat float32_succ ky kx bow Hky Hkx).
      apply same_outcome_refl.
  - destruct binary; rewrite update_length, Hy; exact I.
  - destruct binary; rewrite update_length, Hx; exact I.
  - exact I.
Qed.

Lemma bow_loop_cons_ext (vocab : Vocab) (binary : bool) (x : string)
  (t1 t2 : list string) :
  (forall bow, same_outcome (bow_loop t1 vocab binary bow)
                            (bow_loop t2 vocab binary bow)) ->
  forall bow, same_outcome (bow_loop (x :: t1) vocab binary bow)
                           (bow_loop (x :: t2) vocab binary bow).
Proof.
  intros H bow. simpl. destruct (lookup x vocab) as [idx |]; [| apply H].
  destruct (tensor_index (length bow) idx); [| exact I].
  destruct binary; apply H.
Qed.

Lemma bow_loop_permutation (vocab : Vocab) (binary : bool)
  (t1 t2 : list string) :
  Permutation t1 t2 ->
  forall bow, same_outcome (bow_loop t1 vocab binary bow)
                           (bow_loop t2 vocab binary bow).
Proof.
  induction 1 as [| x t1 t2 _ IH | x y t | t1 t2 t3 _ IH1 _ IH2]; intros bow.
  - apply same_outcome_refl.
  - now apply bow_loop_cons_ext.
  - apply bow_loop_swap.
  - exact (same_outcome_trans _ _ _ _ (IH1 bow) (IH2 bow)).
Qed.

Lemma list_sum_update (k v : nat) (t : list nat) :
  (k < length t)%nat ->
  (list_sum (update k v t) + nth k t 0 = list_sum t + v)%nat.
Proof.
  revert k. induction t as [| x t IH]; intros k Hk; simpl in Hk; [lia |].
  destruct k as [| k]; simpl; [lia |].
  specialize (IH k ltac:(lia)). lia.
Qed.

(** In count mode every known token adds one to the total of the tensor, as
    long as the entries stay within the exact counts. *)
Lemma bow_loop_total (vocab : Vocab) (text : list string) :
  forall bow bow',
    (forall k, (N.of_nat (nth k bow 0%nat) + N.of_nat (length text)
                <= float32_exact_limit)%N) ->
    bow_loop text vocab false bow = Ok bow' ->
    list_sum bow' =
    (list_sum bow + length (filter (fun w => mem w vocab) text))%nat.
Proof.
  induction text as [| x text IH]; intros bow bow' Hb; simpl.
  - intros H. injection H as <-. lia.
  - assert (Hb' : forall k, (N.of_nat (nth k bow 0%nat)
                             + N.of_nat (length text)
                             <= float32_exact_limit)%N).
    { intros k. specialize (Hb k). simpl length in Hb. lia. }
    unfold mem at 1. destruct (lookup x vocab) as [idx |]; [| now apply IH].
    destruct (tensor_index (length bow) idx) as [k | e] eqn:Hk;
      [| discriminate].
    pose proof (tensor_index_lt _ _ _ Hk) as Hlt.
    assert (Hs : float32_succ (nth k bow 0%nat) = S (nth k bow 0%nat)).
    { apply float32_succ_exact. specialize (Hb k). simpl length in Hb. lia. }
    rewrite Hs. intros H. apply IH in H.
    + rewrite H. simpl.
      pose proof (list_sum_update k (S (nth k bow 0%nat)) bow Hlt). lia.
    + intros j. rewrite nth_update by assumption.
      destruct (Nat.eqb j k); [| apply Hb'].
      specialize (Hb k). simpl length in Hb. lia.
Qed.

Lemma list_sum_zeros (n : nat) : list_sum (zeros n) = 0%nat.
Proof. induction n as [| n IH]; simpl; auto. Qed.

End VectoriserFacts.


(** X5. For every dictionary and text, the binary vector is the count vector
    with every entry clipped at 1, and the binary call raises exactly when
    the count call does. *)
Theorem bag_of_words_binary_clips_counts
  (vocab : DataProcessing.Vocab) (text : list string) :
  DataProcessing.bag_of_words text vocab true =
  fmap (map (Nat.min 1)) (DataProcessing.bag_of_words text vocab false).
Proof.
  unfold DataProcessing.bag_of_words. rewrite <- bow_loop_clip.
  f_equal. unfold DataProcessing.zeros. now rewrite map_repeat.
Qed.

(** X6. The order of the tokens plays no part in the vector: of two texts
    that are permutations of one another, in either mode and for every
    dictionary, either both calls return and return the same vector, or both
    raise (not always the same exception: each raises that of the first word
    it meets outside the tensor). *)
Theorem bag_of_words_permutation
  (vocab : DataProcessing.Vocab) (binary : bool) (t1 t2 : list string) :
  Permutation t1 t2 ->
  same_outcome (DataProcessing.bag_of_words t1 vocab binary)
               (DataProcessing.bag_of_words t2 vocab binary).
Proof.
  intros H. unfold DataProcessing.bag_of_words.
  now apply bow_loop_permutation.
Qed.

(** X6 on a text and one of its rearrangements. *)
Lemma bag_of_words_permutation_witness :
  Permutation ["good"; "movie"; "good"]%string
              ["good"; "good"; "movie"]%string /\
  same_outcome
    (DataProcessing.bag_of_words ["good"; "movie"; "good"]%string
                                 EndToEnd.vocab false)
    (DataProcessing.bag_of_words ["good"; "good"; "movie"]%string
                                 EndToEnd.vocab false).
Proof.
  assert (H : Permutation ["good"; "movie"; "good"]%string
                          ["good"; "good"; "movie"]%string).
  { apply perm_skip. apply perm_swap. }
  split; [exact H |].
  exact (bag_of_words_permutation EndToEnd.vocab false _ _ H).
Defined.

(** X7. On a text of at most [2 ^ 24] tokens, when the count call returns,
    the entries of the vector add up to the number of tokens of the text
    that are in the dictionary. *)
Theorem bag_of_words_total
  (vocab : DataProcessing.Vocab) (text : list string) (bow : list nat) :
  (N.of_nat (length text) <= 16777216)%N ->
  DataProcessing.bag_of_words text vocab false = Ok bow ->
  list_sum bow =
  length (filter (fun w => DataProcessing.mem w vocab) text).
Proof.
  intros Hn H. unfold DataProcessing.bag_of_words in H.
  apply bow_loop_total in H.
  - now rewrite list_sum_zeros in H.
  - intros k. rewrite nth_repeat_zero. exact Hn.
Qed.

(** X7 on a text with a repeated and an unknown token. *)
Lemma bag_of_words_total_witness :
  (N.of_nat (length ["good"; "film"; "good"; "movie"]%string)
   <= 16777216)%N /\
  DataProcessing.bag_of_words ["good"; "film"; "good"; "movie"]%string
                              EndToEnd.vocab false = Ok [2; 1; 0]%nat /\
  list_sum [2; 1; 0]%nat =
  length (filter (fun w => DataProcessing.mem w EndToEnd.vocab)
                 ["good"; "film"; "good"; "movie"]%string).
Proof.
  assert (Hn : (N.of_nat (length ["good"; "film"; "good"; "movie"]%string)
                <= 16777216)%N) by (simpl; lia).
  assert (H : DataProcessing.bag_of_words
                ["good"; "film"; "good"; "movie"]%string
                EndToEnd.vocab false = Ok [2; 1; 0]%nat) by reflexivity.
  split; [exact Hn |]. split; [exact H |].
  exact (bag_of_words_total EndToEnd.vocab _ _ Hn H).
Defined.

(** * Further properties of the classifier *)

Section FitFacts.

Import Tensor NaiveBayesModel.
Open Scope R_scope.

Lemma unique_nil_iff (labels : list Z) : unique labels = [] <-> labels = [].
Proof.
  split; [| intros ->; reflexivity].
  destruct labels as [| x l]; [reflexivity |]. intros H.
  assert (Hin : In x (unique (x :: l))) by (apply unique_In; now left).
  rewrite H in Hin. destruct Hin.
Qed.

Lemma estimate_conditional_probabilities_mismatch
  (features : list (list R)) (labels : list Z) (delta : R) :
  labels <> [] -> length labels <> length features ->
  estimate_conditional_probabilities features labels delta = Err IndexError.
Proof.
  intros Hne Hlen. unfold estimate_conditional_probabilities.
  destruct (unique labels) as [| c rest] eqn:E.
  - apply (proj1 (unique_nil_iff labels)) in E. contradiction.
  - simpl. unfold mask_select.
    replace (Nat.eqb (length labels) (length features)) with false;
      [reflexivity |].
    symmetry. now apply Nat.eqb_neq.
Qed.

Lemma insert_unique_sorted (x : Z) (l : list Z) :
  StronglySorted Z.lt l -> StronglySorted Z.lt (insert_unique x l).
Proof.
  induction 1 as [| y l Hs IH Hy]; simpl.
  - repeat constructor.
  - destruct (x <? y)%Z eqn:E1.
    + apply Z.ltb_lt in E1. constructor; [now constructor |].
      constructor; [assumption |].
      eapply Forall_impl; [| exact Hy]. intros a Ha. simpl in Ha. lia.
    + destruct (x =? y)%Z eqn:E2; [now constructor |].
      apply Z.ltb_ge in E1. apply Z.eqb_neq in E2.
      constructor; [assumption |].
      apply Forall_forall. intros a Ha. apply insert_unique_In in Ha.
      destruct Ha as [-> | Ha]; [lia |].
      rewrite Forall_forall in Hy. now apply Hy.
Qed.

Lemma unique_sorted (labels : list Z) : StronglySorted Z.lt (unique labels).
Proof.
  induction labels as [| x l IH]; simpl; [constructor |].
  now apply insert_unique_sorted.
Qed.

Lemma mem_keys_app (y x : Z) (keys : list Z) :
  existsb (Z.eqb y) (keys ++ [x]) = existsb (Z.eqb y) keys || Z.eqb y x.
Proof. rewrite existsb_app. simpl. now rewrite orb_false_r. Qed.

Lemma counter_add_keys_list (x : Z) (c : Dict nat) :
  map fst (counter_add x c) =
  if existsb (Z.eqb x) (map fst c) then map fst c else map fst c ++ [x].
Proof.
  induction c as [| [k n] c IH]; simpl; [reflexivity |].
  destruct (Z.eqb x k) eqn:E; simpl; [reflexivity |].
  rewrite IH. now destruct (existsb (Z.eqb x) (map fst c)).
Qed.

Lemma filter_all (A : Type) (l : list A) : filter (fun _ => true) l = l.
Proof. induction l as [| x l IH]; simpl; [reflexivity | now rewrite IH]. Qed.

Lemma filter_twice (A : Type) (p q : A -> bool) (l : list A) :
  filter p (filter q l) = filter (fun y => q y && p y) l.
Proof.
  induction l as [| x l IH]; simpl; [reflexivity |].
  destruct (q x); simpl; [destruct (p x) |]; now rewrite IH.
Qed.

(** The keys of the counting loop: those of the starting counter, then the
    new values in the order of their first occurrence. *)
Lemma Counter_fold_keys (l : list Z) :
  forall c : Dict nat,
    map fst (fold_left (fun c x => counter_add x c) l c) =
    map fst c ++
    filter (fun y => negb (existsb (Z.eqb y) (map fst c)))
           (first_occurrences l).
Proof.
  induction l as [| x l IH]; intros c; simpl.
  - now rewrite app_nil_r.
  - rewrite IH, counter_add_keys_list.
    destruct (existsb (Z.eqb x) (map fst c)) eqn:E; simpl.
    + f_equal. rewrite filter_twice. apply filter_ext.
      intros y. destruct (Z.eqb y x) eqn:Eyx; simpl; [| reflexivity].
      apply Z.eqb_eq in Eyx. subst y. now rewrite E.
    + rewrite <- app_assoc. simpl. f_equal. f_equal.
      rewrite filter_twice. apply filter_ext. intros y.
      rewrite mem_keys_app, negb_orb. apply andb_comm.
Qed.

Lemma class_priors_keys_in_order (labels : list Z) :
  map fst (estimate_class_priors labels) = first_occurrences labels.
Proof.
  unfold estimate_class_priors, Counter. rewrite map_map. simpl.
  change (map (fun x : Z * nat => fst x)) with (@map (Z * nat) Z fst).
  rewrite Counter_fold_keys. simpl. apply filter_all.
Qed.

End FitFacts.

(** X8. On a feature tensor with at least one row, [fit] raises exactly when
    the label tensor is not empty and its length differs from the number of
    rows; the exception is the [IndexError] of the mask, and the object is
    left with the new priors and width beside the conditional probabilities
    it had before.  Otherwise [fit] succeeds and the two dictionaries it
    stores do not depend on the previous state. *)
Theorem fit_outcome
  (self : NaiveBayesModel.NaiveBayes) (features : list (list R))
  (labels : list Z) (delta : R) :
  features <> [] ->
  (labels = [] \/ length labels = length features ->
   exists cps,
     NaiveBayesModel.estimate_conditional_probabilities features labels delta
     = Ok cps /\
     NaiveBayesModel.fit self features labels delta =
     (NaiveBayesModel.mkNaiveBayes
        (Some (NaiveBayesModel.estimate_class_priors labels))
        (Some cps) (NaiveBayesModel.shape1 features), Ok tt)) /\
  (labels <> [] /\ length labels <> length features ->
   NaiveBayesModel.fit self features labels delta =
   (NaiveBayesModel.mkNaiveBayes
      (Some (NaiveBayesModel.estimate_class_priors labels))
      (NaiveBayesModel.conditional_probabilities self)
      (NaiveBayesModel.shape1 features), Err IndexError)).
Proof.
  intros _. split.
  - intros H.
    assert (Hok : exists cps,
               NaiveBayesModel.estimate_conditional_probabilities
                 features labels delta = Ok cps).
    { destruct H as [-> | Hlen]; [now exists [] |].
      eexists. apply estimate_conditional_probabilities_total. auto. }
    destruct Hok as [cps Hcps]. exists cps. split; [assumption |].
    unfold NaiveBayesModel.fit. now rewrite Hcps.
  - intros [Hne Hlen]. unfold NaiveBayesModel.fit.
    now rewrite estimate_conditional_probabilities_mismatch.
Qed.

(** X8 on the two rows of the end-to-end example with a single label: the
    mask raises, and the new object keeps its empty conditional
    probabilities beside the new prior and the width 3. *)
Lemma fit_outcome_witness :
  EndToEnd.features <> [] /\
  NaiveBayesModel.fit NaiveBayesModel.__init__ EndToEnd.features [1]%Z 1%R =
  (NaiveBayesModel.mkNaiveBayes
     (Some (NaiveBayesModel.estimate_class_priors [1]%Z)) (Some []) 3,
   Err IndexError).
Proof.
  assert (Hne : EndToEnd.features <> []) by discriminate.
  split; [exact Hne |].
  apply (proj2 (fit_outcome NaiveBayesModel.__init__ EndToEnd.features
                  [1]%Z 1%R Hne)).
  split; [discriminate | simpl; lia].
Defined.

(** X9. [class_priors] lists the classes in the order in which the labels
    first occur. *)
Theorem class_priors_order (labels : list Z) :
  map fst (NaiveBayesModel.estimate_class_priors labels)
  = NaiveBayesModel.first_occurrences labels.
Proof.
  unfold NaiveBayesModel.estimate_class_priors, NaiveBayesModel.Counter.
  rewrite map_map. simpl.
  change (map (fun x : Z * nat => fst x)) with (@map (Z * nat) Z fst).
  rewrite Counter_fold_keys. simpl. apply filter_all.
Qed.

(** X10. When the lengths agree, [estimate_conditional_probabilities] keys
    its result in strictly ascending label order, one key per label that
    occurs, whatever the order of the labels. *)
Theorem conditional_probabilities_keys
  (features : list (list R)) (labels : list Z) (delta : R) :
  length features = length labels ->
  exists cps,
    NaiveBayesModel.estimate_conditional_probabilities features labels delta
    = Ok cps /\
    StronglySorted Z.lt (map fst cps) /\
    (forall c, In c (map fst cps) <-> In c labels).
Proof.
  intros Hlen. eexists. split.
  - now apply estimate_conditional_probabilities_total.
  - rewrite map_map. simpl. rewrite map_id. split.
    + apply unique_sorted.
    + apply unique_In.
Qed.

(** X10 on the labels of the end-to-end example, which occur as 1 then 0. *)
Lemma conditional_probabilities_keys_witness :
  length EndToEnd.features = length EndToEnd.labels /\
  exists cps,
    NaiveBayesModel.estimate_conditional_probabilities
      EndToEnd.features EndToEnd.labels 1%R = Ok cps /\
    StronglySorted Z.lt (map fst cps).
Proof.
  assert (H : length EndToEnd.features = length EndToEnd.labels)
    by reflexivity.
  split; [exact H |].
  destruct (conditional_probabilities_keys EndToEnd.features EndToEnd.labels
              1%R H) as [cps (H1 & H2 & _)].
  exists cps. split; assumption.
Defined.

(** X11. With an empty label tensor [fit] raises nothing on a feature tensor
    with at least one row, and leaves both dictionaries empty: [predict] and
    [predict_proba] then raise the not-trained exception. *)
Theorem fit_without_labels
  (K : Tensor.Kernels) (self : NaiveBayesModel.NaiveBayes)
  (features : list (list R)) (delta : R) (feature : list R) :
  features <> [] ->
  NaiveBayesModel.fit self features [] delta =
  (NaiveBayesModel.mkNaiveBayes (Some []) (Some [])
     (NaiveBayesModel.shape1 features), Ok tt) /\
  NaiveBayesModel.predict K
    (fst (NaiveBayesModel.fit self features [] delta)) feature
  = Err NotTrained /\
  NaiveBayesModel.predict_proba K
    (fst (NaiveBayesModel.fit self features [] delta)) feature
  = Err NotTrained.
Proof. intros _. repeat split. Qed.

(** X11 on the model of the end-to-end example, fitted again without one
    label. *)
Lemma fit_without_labels_witness :
  EndToEnd.features <> [] /\
  NaiveBayesModel.predict Tensor.exact
    (fst (NaiveBayesModel.fit EndToEnd.model EndToEnd.features [] 1%R))
    [1; 1; 0]%R
  = Err NotTrained.
Proof.
  assert (Hne : EndToEnd.features <> []) by discriminate.
  split; [exact Hne |].
  exact (proj1 (proj2 (fit_without_labels Tensor.exact EndToEnd.model
                         EndToEnd.features 1%R [1; 1; 0]%R Hne))).
Defined.

Section PosteriorFacts.

Import Tensor NaiveBayesModel.
Open Scope R_scope.

Lemma mapM_ext_in (A B : Type) (f g : A -> result B) (l : list A) :
  (forall a, In a l -> f a = g a) -> mapM f l = mapM g l.
Proof.
  induction l as [| a l IH]; intros H; simpl; [reflexivity |].
  rewrite (H a (or_introl eq_refl)), IH; [reflexivity |].
  intros b Hb. apply H. now right.
Qed.

Lemma mapM_Forall2 (A B : Type) (f : A -> result B) (l : list A)
  (bs : list B) :
  mapM f l = Ok bs <-> Forall2 (fun a b => f a = Ok b) l bs.
Proof.
  revert bs. induction l as [| a l IH]; intros bs; simpl.
  - split.
    + intros H. injection H as <-. constructor.
    + intros H. inversion H. reflexivity.
  - split.
    + destruct (f a) as [b | e] eqn:Ha; simpl; [| discriminate].
      destruct (mapM f l) as [bs' | e] eqn:Hl; simpl; [| discriminate].
      intros H. injection H as <-. constructor; [assumption |].
      now apply IH.
    + intros H. inversion H as [| ? b ? bs' Ha Hl]; subst.
      apply IH in Hl. rewrite Ha, Hl. reflexivity.
Qed.

(** The first item that raises decides the exception of the loop. *)
Lemma mapM_raises (A B : Type) (f : A -> result B) (e : error)
  (l : list A) :
  (forall a, In a l -> (exists b, f a = Ok b) \/ f a = Err e) ->
  (exists a, In a l /\ f a = Err e) ->
  mapM f l = Err e.
Proof.
  induction l as [| a l IH]; intros Hall [a0 [Hin Ha0]]; [destruct Hin |].
  simpl. destruct (Hall a (or_introl eq_refl)) as [[b Hb] | He].
  - rewrite Hb. simpl. rewrite IH; [reflexivity | |].
    + intros a' Ha'. apply Hall. now right.
    + destruct Hin as [<- | Hin]; [congruence |]. now exists a0.
  - now rewrite He.
Qed.

(** What a trained model holds, with the stored vectors named. *)
Lemma trained_by_vectors (features : list (list R)) (labels : list Z)
  (delta : R) (model : NaiveBayes) :
  trained_by features labels delta model ->
  labels <> [] /\
  class_priors model = Some (estimate_class_priors labels) /\
  conditional_probabilities model =
  Some (map (fun c => (c, class_vector features labels delta c))
            (unique labels)).
Proof. apply trained_by_model. Qed.

Lemma class_vector_length (features : list (list R)) (labels : list Z)
  (delta : R) (c : Z) :
  length (class_vector features labels delta c) = shape1 features.
Proof. unfold class_vector. now rewrite length_map, length_seq. Qed.

Lemma trained_dict_get (features : list (list R)) (labels : list Z)
  (delta : R) (c : Z) :
  dict_get c (map (fun c => (c, class_vector features labels delta c))
                  (unique labels)) =
  if in_dec Z.eq_dec c labels
  then Some (class_vector features labels delta c) else None.
Proof.
  rewrite dict_get_tabulate.
  destruct (in_dec Z.eq_dec c (unique labels)) as [H | H],
           (in_dec Z.eq_dec c labels) as [H' | H']; try reflexivity.
  - exfalso. apply H'. now apply (proj1 (unique_In labels c)).
  - exfalso. apply H. now apply (proj2 (unique_In labels c)).
Qed.

Lemma priors_nonempty (labels : list Z) :
  labels <> [] -> estimate_class_priors labels <> [].
Proof.
  intros Hne H. destruct labels as [| l0 labels]; [contradiction |].
  assert (Hin : In l0 (map fst (estimate_class_priors (l0 :: labels))))
    by (apply estimate_class_priors_keys; now left).
  rewrite H in Hin. destruct Hin.
Qed.

(** The guard of [predict] and [predict_proba] passes on a trained model. *)
Lemma trained_guard (features : list (list R)) (labels : list Z)
  (delta : R) (model : NaiveBayes) :
  trained_by features labels delta model ->
  (falsy (class_priors model) || falsy (conditional_probabilities model)
   = false)%bool.
Proof.
  intros Ht. destruct (trained_by_vectors _ _ _ _ Ht) as (Hne & Hp & Hc).
  rewrite Hp, Hc. apply orb_false_iff. split; simpl.
  - pose proof (priors_nonempty labels Hne).
    destruct (estimate_class_priors labels); [contradiction | reflexivity].
  - destruct (unique labels) eqn:E; [| reflexivity].
    apply (proj1 (unique_nil_iff labels)) in E. contradiction.
Qed.

Lemma tmul_mismatch (K : Kernels) (a b : list xreal) :
  length a <> length b -> length a <> 1%nat -> length b <> 1%nat ->
  tmul K a b = Err RuntimeError.
Proof.
  intros H Ha Hb. unfold tmul.
  replace (Nat.eqb (length a) (length b)) with false
    by (symmetry; now apply Nat.eqb_neq).
  destruct a as [| x [| x' a]], b as [| y [| y' b]]; simpl in *;
    try reflexivity; contradiction.
Qed.

Lemma combine_repeat (K : Kernels) (x : xreal) (b : list xreal) :
  map (fun p => torch_mul K (fst p) (snd p))
      (combine (repeat x (length b)) b) =
  map (fun y => torch_mul K x y) b.
Proof. induction b as [| y b IH]; simpl; [reflexivity | now rewrite IH]. Qed.

(** A tensor of one entry multiplies like its repetition. *)
Lemma tmul_broadcast (K : Kernels) (x : xreal) (b : list xreal) :
  tmul K [x] b = tmul K (repeat x (length b)) b.
Proof.
  unfold tmul. rewrite repeat_length, Nat.eqb_refl, combine_repeat.
  destruct b as [| y [| y' b]]; reflexivity.
Qed.

End PosteriorFacts.

(** X12. On a trained model, a feature vector whose length is neither the
    width of the training matrix nor 1 makes the three prediction operations
    raise the [RuntimeError] of the element-wise product (unless the width
    itself is 1). *)
Theorem wrong_feature_length_raises
  (K : Tensor.Kernels) (features : list (list R)) (labels : list Z)
  (delta : R) (model : NaiveBayesModel.NaiveBayes) (feature : list R) :
  NaiveBayesModel.trained_by features labels delta model ->
  length feature <> NaiveBayesModel.shape1 features ->
  length feature <> 1%nat ->
  NaiveBayesModel.shape1 features <> 1%nat ->
  NaiveBayesModel.estimate_class_posteriors K model feature
  = Err RuntimeError /\
  NaiveBayesModel.predict K model feature = Err RuntimeError /\
  NaiveBayesModel.predict_proba K model feature = Err RuntimeError.
Proof.
  intros Ht Hlen H1 Hw.
  destruct (trained_by_vectors _ _ _ _ Ht) as (Hne & Hp & Hc).
  assert (Hrun : NaiveBayesModel.estimate_class_posteriors K model feature
                 = Err RuntimeError).
  { rewrite (posteriors_unfold K model _ _ feature Hp Hc).
    pose proof (priors_nonempty labels Hne) as Hpri.
    destruct (NaiveBayesModel.estimate_class_priors labels)
      as [| [c prior] rest] eqn:E; [contradiction |].
    assert (Hin : In c labels).
    { apply estimate_class_priors_keys. rewrite E. now left. }
    simpl. unfold NaiveBayesModel.class_log_posterior. simpl.
    rewrite trained_dict_get.
    destruct (in_dec Z.eq_dec c labels) as [_ |]; [| contradiction].
    rewrite tmul_mismatch; [reflexivity | | |];
      rewrite !length_map, ?class_vector_length; assumption. }
  split; [assumption |].
  unfold NaiveBayesModel.predict, NaiveBayesModel.predict_proba.
  rewrite (trained_guard _ _ _ _ Ht), Hrun. split; reflexivity.
Qed.

(** X12 on the end-to-end model, of width 3, and a vector of 2 entries. *)
Lemma wrong_feature_length_raises_witness :
  NaiveBayesModel.trained_by EndToEnd.features EndToEnd.labels 1%R
                             EndToEnd.model /\
  length [1; 1]%R <> NaiveBayesModel.shape1 EndToEnd.features /\
  length [1; 1]%R <> 1%nat /\
  NaiveBayesModel.shape1 EndToEnd.features <> 1%nat /\
  NaiveBayesModel.predict Tensor.exact EndToEnd.model [1; 1]%R
  = Err RuntimeError.
Proof.
  assert (Ht : NaiveBayesModel.trained_by EndToEnd.features EndToEnd.labels
                 1%R EndToEnd.model)
    by (apply example_trained, example_fit).
  assert (H1 : length [1; 1]%R <> NaiveBayesModel.shape1 EndToEnd.features)
    by (simpl; lia).
  assert (H2 : length [1; 1]%R <> 1%nat) by (simpl; lia).
  assert (H3 : NaiveBayesModel.shape1 EndToEnd.features <> 1%nat)
    by (simpl; lia).
  repeat (split; [assumption |]).
  exact (proj1 (proj2 (wrong_feature_length_raises Tensor.exact _ _ _ _ _
                         Ht H1 H2 H3))).
Defined.

(** X13. On a trained model a feature vector of one entry is not rejected:
    it is broadcast, and the three prediction operations return what they
    return on that entry repeated over the whole width. *)
Theorem single_entry_feature_broadcasts
  (K : Tensor.Kernels) (features : list (list R)) (labels : list Z)
  (delta : R) (model : NaiveBayesModel.NaiveBayes) (x : R) :
  NaiveBayesModel.trained_by features labels delta model ->
  let wide := repeat x (NaiveBayesModel.shape1 features) in
  NaiveBayesModel.estimate_class_posteriors K model [x] =
  NaiveBayesModel.estimate_class_posteriors K model wide /\
  NaiveBayesModel.predict K model [x] = NaiveBayesModel.predict K model wide /\
  NaiveBayesModel.predict_proba K model [x] =
  NaiveBayesModel.predict_proba K model wide.
Proof.
  intros Ht wide.
  destruct (trained_by_vectors _ _ _ _ Ht) as (Hne & Hp & Hc).
  assert (Hrun : NaiveBayesModel.estimate_class_posteriors K model [x] =
                 NaiveBayesModel.estimate_class_posteriors K model wide).
  { rewrite !(posteriors_unfold K model _ _ _ Hp Hc).
    apply mapM_ext_in. intros [c prior] _.
    unfold NaiveBayesModel.class_log_posterior. simpl.
    rewrite trained_dict_get.
    destruct (in_dec Z.eq_dec c labels) as [_ |]; [| reflexivity].
    unfold wide. rewrite map_repeat, tmul_broadcast.
    now rewrite length_map, class_vector_length. }
  split; [assumption |].
  unfold NaiveBayesModel.predict, NaiveBayesModel.predict_proba.
  rewrite Hrun. split; reflexivity.
Qed.

(** X13 on the end-to-end model. *)
Lemma single_entry_feature_broadcasts_witness :
  NaiveBayesModel.trained_by EndToEnd.features EndToEnd.labels 1%R
                             EndToEnd.model /\
  NaiveBayesModel.predict Tensor.exact EndToEnd.model [2]%R =
  NaiveBayesModel.predict Tensor.exact EndToEnd.model [2; 2; 2]%R.
Proof.
  assert (Ht : NaiveBayesModel.trained_by EndToEnd.features EndToEnd.labels
                 1%R EndToEnd.model)
    by (apply example_trained, example_fit).
  split; [exact Ht |].
  exact (proj1 (proj2 (single_entry_feature_broadcasts Tensor.exact _ _ _ _
                         2%R Ht))).
Defined.

(** X14. When both dictionaries are filled but a class of [class_priors] has
    no entry in [conditional_probabilities] (the state that a failed [fit]
    leaves behind), and the stored vectors have the length of the feature
    vector, the three prediction operations raise [KeyError]. *)
Theorem missing_class_raises
  (K : Tensor.Kernels)
  (model : NaiveBayesModel.NaiveBayes) (priors : NaiveBayesModel.Dict R)
  (cps : NaiveBayesModel.Dict (list Tensor.xreal)) (feature : list R) :
  NaiveBayesModel.class_priors model = Some priors ->
  NaiveBayesModel.conditional_probabilities model = Some cps ->
  cps <> [] ->
  (exists c, In c (map fst priors) /\ NaiveBayesModel.dict_get c cps = None) ->
  (forall c probs, NaiveBayesModel.dict_get c cps = Some probs ->
                   length probs = length feature) ->
  NaiveBayesModel.estimate_class_posteriors K model feature = Err KeyError /\
  NaiveBayesModel.predict K model feature = Err KeyError /\
  NaiveBayesModel.predict_proba K model feature = Err KeyError.
Proof.
  intros Hp Hc Hcps [c [Hin Hmiss]] Hlen.
  assert (Hrun : NaiveBayesModel.estimate_class_posteriors K model feature
                 = Err KeyError).
  { rewrite (posteriors_unfold K model _ _ feature Hp Hc).
    apply mapM_raises.
    - intros [k prior] _. unfold NaiveBayesModel.class_log_posterior. simpl.
      destruct (NaiveBayesModel.dict_get k cps) as [probs |] eqn:Hk;
        [left | now right].
      rewrite tmul_same_length
        by (rewrite !length_map; symmetry; eapply Hlen; eassumption).
      simpl. eauto.
    - apply in_map_iff in Hin as [[k prior] [Hk Hin]]. simpl in Hk. subst k.
      exists (c, prior). split; [assumption |].
      unfold NaiveBayesModel.class_log_posterior. simpl. now rewrite Hmiss. }
  split; [assumption |].
  assert (Hguard : (NaiveBayesModel.falsy (NaiveBayesModel.class_priors model)
                    || NaiveBayesModel.falsy
                         (NaiveBayesModel.conditional_probabilities model)
                    = false)%bool).
  { rewrite Hp, Hc. apply orb_false_iff. split; simpl.
    - destruct priors; [destruct Hin | reflexivity].
    - destruct cps; [contradiction | reflexivity]. }
  unfold NaiveBayesModel.predict, NaiveBayesModel.predict_proba.
  rewrite Hguard, Hrun. split; reflexivity.
Qed.

(** X14 on the state that a failed second [fit] leaves behind: the priors of
    the new label 2 beside the vectors of the classes 0 and 1. *)
Lemma missing_class_raises_witness :
  snd (NaiveBayesModel.fit EndToEnd.model [[1; 1; 0]]%R [2; 2]%Z 1%R)
  = Err IndexError /\
  NaiveBayesModel.predict Tensor.exact
    (fst (NaiveBayesModel.fit EndToEnd.model [[1; 1; 0]]%R [2; 2]%Z 1%R))
    [1; 1; 0]%R = Err KeyError.
Proof.
  split; [reflexivity |].
  refine (proj1 (proj2 (missing_class_raises Tensor.exact
            (fst (NaiveBayesModel.fit EndToEnd.model [[1; 1; 0]]%R
                    [2; 2]%Z 1%R))
            (NaiveBayesModel.estimate_class_priors [2; 2]%Z)
            [(0%Z, [Tensor.Fin (1 / 5); Tensor.Fin (2 / 5);
                    Tensor.Fin (2 / 5)]%R);
             (1%Z, [Tensor.Fin (2 / 5); Tensor.Fin (2 / 5);
                    Tensor.Fin (1 / 5)]%R)]
            [1; 1; 0]%R eq_refl eq_refl _ _ _))).
  - discriminate.
  - exists 2%Z. split; [now left | reflexivity].
  - intros c probs. simpl.
    destruct (Z.eqb c 0); [intros H; now injection H as <- |].
    destruct (Z.eqb c 1); [intros H; now injection H as <- | discriminate].
Defined.

Section DecisionFacts.

Import Tensor NaiveBayesModel.
Open Scope R_scope.

Lemma first_occurrences_constant (c : Z) (labels : list Z) :
  labels <> [] -> Forall (eq c) labels -> first_occurrences labels = [c].
Proof.
  intros Hne H. induction H as [| x l Hx Hl IH]; [contradiction |].
  subst x. simpl. f_equal.
  destruct l as [| y l]; [reflexivity |].
  rewrite IH by discriminate. simpl. now rewrite Z.eqb_refl.
Qed.

(** The guard of [predict] and [predict_proba] passes when every class of a
    non-empty [class_priors] has a conditional vector. *)
Lemma fitted_guard (model : NaiveBayes) (priors : Dict R)
  (cps : Dict (list xreal)) :
  class_priors model = Some priors ->
  conditional_probabilities model = Some cps ->
  priors <> [] ->
  (forall c, In c (map fst priors) ->
     exists probs, dict_get c cps = Some probs) ->
  (falsy (class_priors model) || falsy (conditional_probabilities model)
   = false)%bool.
Proof.
  intros Hp Hc Hne Hall. rewrite Hp, Hc. apply orb_false_iff. split; simpl.
  - destruct priors; [contradiction | reflexivity].
  - destruct priors as [| [c prior] rest]; [contradiction |].
    destruct (Hall c (or_introl eq_refl)) as [probs Hget].
    destruct cps; [discriminate | reflexivity].
Qed.

(** The products of an all-zero feature vector with the logarithms of
    positive probabilities are zeros. *)
Lemma zero_products (K : Kernels) (n : nat) (probs : list xreal) :
  zero_laws K -> Forall xpositive probs ->
  map (fun p => torch_mul K (Fin (fst p)) (torch_log K (snd p)))
      (combine (repeat 0 n) probs) =
  repeat (Fin 0) (Nat.min n (length probs)).
Proof.
  intros HK Hpos. revert n.
  induction Hpos as [| x probs Hx _ IH]; intros [| n]; simpl;
    try reflexivity.
  destruct x as [r | | |]; simpl in Hx; try contradiction.
  destruct (log_finite K HK r Hx) as [l ->].
  now rewrite (mul_zero K HK), IH.
Qed.

(** The kernels over the exact reals obey the laws of zero. *)
Lemma exact_zero_laws : zero_laws exact.
Proof.
  split; simpl.
  - intros r. f_equal. lra.
  - induction n as [| n IH]; simpl; [reflexivity |].
    rewrite IH. simpl. f_equal. lra.
  - intros [a | | |]; simpl; try reflexivity. f_equal. lra.
  - intros p Hp. exists (ln p).
    destruct (Rlt_dec 0 p); [reflexivity | contradiction].
Qed.

End DecisionFacts.

(** X17. A model whose [class_priors] come from labels that are all the same
    class always answers 0, the only position of [class_priors], whatever
    that class is and whatever the kernels compute. *)
Theorem single_class_model
  (K : Tensor.Kernels) (model : NaiveBayesModel.NaiveBayes)
  (labels : list Z) (c : Z)
  (cps : NaiveBayesModel.Dict (list Tensor.xreal))
  (probs : list Tensor.xreal) (feature : list R) :
  labels <> [] ->
  Forall (eq c) labels ->
  NaiveBayesModel.class_priors model
  = Some (NaiveBayesModel.estimate_class_priors labels) ->
  NaiveBayesModel.conditional_probabilities model = Some cps ->
  NaiveBayesModel.dict_get c cps = Some probs ->
  length probs = length feature ->
  NaiveBayesModel.predict K model feature = Ok 0%Z.
Proof.
  intros Hne Hall Hp Hc Hget Hlen.
  assert (Hkeys : map fst (NaiveBayesModel.estimate_class_priors labels)
                  = [c]).
  { rewrite class_priors_keys_in_order.
    now apply first_occurrences_constant. }
  assert (Hfit : forall c',
            In c' (map fst (NaiveBayesModel.estimate_class_priors labels)) ->
            exists probs',
              NaiveBayesModel.dict_get c' cps = Some probs' /\
              length probs' = length feature).
  { intros c' Hin. rewrite Hkeys in Hin. destruct Hin as [<- | []].
    exists probs. auto. }
  destruct (posteriors_fitted K model _ cps feature Hp Hc Hfit)
    as [lp [Hlp HF]].
  apply Forall2_length in HF.
  rewrite <- (length_map fst), Hkeys in HF.
  destruct lp as [| x [| y lp]]; try discriminate.
  unfold NaiveBayesModel.predict.
  rewrite (fitted_guard model _ cps Hp Hc), Hlp; [reflexivity | |].
  - intros E. rewrite E in Hkeys. discriminate.
  - intros c' Hin. destruct (Hfit c' Hin) as [probs' [H _]]. eauto.
Qed.

(** X17 on one row of the end-to-end example, of class 1 alone. *)
Lemma single_class_model_witness :
  [1]%Z <> [] /\
  Forall (eq 1%Z) [1]%Z /\
  NaiveBayesModel.predict Tensor.exact
    (fst (NaiveBayesModel.fit NaiveBayesModel.__init__
            [[1; 1; 0]]%R [1]%Z 1%R)) [0; 1; 1]%R = Ok 0%Z.
Proof.
  assert (Hne : [1]%Z <> []) by discriminate.
  assert (Hc : Forall (eq 1%Z) [1]%Z) by (repeat constructor).
  split; [exact Hne |]. split; [exact Hc |].
  exact (single_class_model Tensor.exact
           (fst (NaiveBayesModel.fit NaiveBayesModel.__init__
                   [[1; 1; 0]]%R [1]%Z 1%R))
           [1]%Z 1%Z
           [(1%Z, NaiveBayesModel.smoothed_probs [[1; 1; 0]]%R
                    [[1; 1; 0]]%R 1%R)]
           (NaiveBayesModel.smoothed_probs [[1; 1; 0]]%R [[1; 1; 0]]%R 1%R)
           [0; 1; 1]%R Hne Hc eq_refl eq_refl eq_refl eq_refl).
Defined.

(** X18. On the all-zero feature vector, the vector of a text without one
    known word, a model whose stored conditional probabilities are all
    greater than 0 is left with its priors: the log-posterior of every class
    is the logarithm of its prior, and [predict] returns the first position
    where that logarithm is greatest.  This holds for all kernels that obey
    the laws of zero of IEEE arithmetic. *)
Theorem predict_without_known_words
  (K : Tensor.Kernels) (model : NaiveBayesModel.NaiveBayes)
  (priors : NaiveBayesModel.Dict R)
  (cps : NaiveBayesModel.Dict (list Tensor.xreal)) (n : nat) :
  NaiveBayesModel.zero_laws K ->
  NaiveBayesModel.class_priors model = Some priors ->
  NaiveBayesModel.conditional_probabilities model = Some cps ->
  priors <> [] ->
  (forall c, In c (map fst priors) ->
     exists probs,
       NaiveBayesModel.dict_get c cps = Some probs /\
       length probs = n /\
       Forall NaiveBayesModel.xpositive probs) ->
  let log_priors :=
    map (fun item => Tensor.torch_log K (Tensor.Fin (snd item))) priors in
  NaiveBayesModel.estimate_class_posteriors K model (repeat 0%R n)
  = Ok log_priors /\
  NaiveBayesModel.predict K model (repeat 0%R n)
  = fmap Z.of_nat (Tensor.argmax log_priors).
Proof.
  intros HK Hp Hc Hne Hall log_priors.
  assert (Hrun : NaiveBayesModel.estimate_class_posteriors K model
                   (repeat 0%R n) = Ok log_priors).
  { rewrite (posteriors_unfold K model _ _ _ Hp Hc).
    apply mapM_total. intros [c prior] Hin.
    destruct (Hall c) as [probs (Hget & Hlen & Hpos)].
    { apply in_map_iff. now exists (c, prior). }
    rewrite (class_log_posterior_value K cps _ c prior probs Hget)
      by (now rewrite repeat_length).
    unfold NaiveBayesModel.log_posterior.
    rewrite (zero_products K n probs HK Hpos),
      (NaiveBayesModel.sum_zeros K HK), (NaiveBayesModel.add_zero K HK).
    reflexivity. }
  split; [exact Hrun |].
  unfold NaiveBayesModel.predict.
  rewrite (fitted_guard model priors cps Hp Hc Hne), Hrun; [reflexivity |].
  intros c Hin. destruct (Hall c Hin) as [probs [H _]]. eauto.
Qed.

(** X18 on the end-to-end model, with the kernels over the exact reals. *)
Lemma predict_without_known_words_witness :
  NaiveBayesModel.zero_laws Tensor.exact /\
  EndToEnd.model_priors <> [] /\
  NaiveBayesModel.estimate_class_posteriors Tensor.exact EndToEnd.model
    (repeat 0%R 3)
  = Ok (map (fun item => Tensor.torch_log Tensor.exact
                           (Tensor.Fin (snd item)))
            EndToEnd.model_priors).
Proof.
  assert (Hne : EndToEnd.model_priors <> []) by discriminate.
  split; [exact exact_zero_laws |]. split; [exact Hne |].
  assert (Hall : forall c, In c (map fst EndToEnd.model_priors) ->
            exists probs,
              NaiveBayesModel.dict_get c EndToEnd.model_vectors = Some probs /\
              length probs = 3%nat /\
              Forall NaiveBayesModel.xpositive probs).
  { intros c [<- | [<- | []]]; eexists;
      (split; [reflexivity |]); (split; [reflexivity |]);
      repeat constructor; simpl; lra. }
  exact (proj1 (predict_without_known_words Tensor.exact EndToEnd.model
                  EndToEnd.model_priors EndToEnd.model_vectors 3
                  exact_zero_laws eq_refl eq_refl Hne Hall)).
Defined.

(** X19. When the labels first occur in the order 0, 1, 2, ... the integer
    that [predict] returns is the label stored at the position it stands
    for: on such training data the position and the class label coincide. *)
Theorem predict_returns_label_when_labels_in_order
  (K : Tensor.Kernels) (features : list (list R)) (labels : list Z)
  (delta : R) (model : NaiveBayesModel.NaiveBayes) (feature : list R)
  (n : nat) :
  NaiveBayesModel.trained_by features labels delta model ->
  length feature = NaiveBayesModel.shape1 features ->
  NaiveBayesModel.first_occurrences labels = map Z.of_nat (seq 0 n) ->
  exists z prior,
    NaiveBayesModel.predict K model feature = Ok z /\
    nth_error (NaiveBayesModel.estimate_class_priors labels) (Z.to_nat z)
    = Some (z, prior).
Proof.
  intros Ht Hlen Horder.
  destruct (trained_posteriors K features labels delta model feature
              (fun _ => True) Ht Hlen) as [lp (Hlp & Hl & _ & Hguard)];
    [trivial |].
  destruct (trained_by_vectors _ _ _ _ Ht) as (Hne & _ & _).
  assert (Hnil : lp <> []).
  { intros ->. pose proof (priors_nonempty labels Hne).
    destruct (NaiveBayesModel.estimate_class_priors labels);
      [contradiction | discriminate]. }
  destruct (argmax_spec lp Hnil) as [k (Hk & Hlt & _)].
  rewrite Hl in Hlt.
  destruct (nth_error (NaiveBayesModel.estimate_class_priors labels) k)
    as [[c prior] |] eqn:E;
    [| apply nth_error_None in E; lia].
  assert (Hn : (k < n)%nat).
  { rewrite <- (length_map fst), class_priors_keys_in_order, Horder,
      length_map, length_seq in Hlt. exact Hlt. }
  assert (Hc : c = Z.of_nat k).
  { assert (H1 : nth k (map fst (NaiveBayesModel.estimate_class_priors
                                   labels)) (fst (0%Z, 0%R)) = c).
    { rewrite map_nth. now rewrite (nth_error_nth _ _ _ E). }
    rewrite class_priors_keys_in_order, Horder in H1. simpl in H1.
    rewrite nth_indep with (d' := Z.of_nat 0) in H1
      by (rewrite length_map, length_seq; lia).
    rewrite map_nth, seq_nth in H1 by lia. simpl in H1. lia. }
  exists (Z.of_nat k), prior. split.
  - unfold NaiveBayesModel.predict. rewrite Hguard, Hlp. simpl.
    now rewrite Hk.
  - rewrite Nat2Z.id, E, Hc. reflexivity.
Qed.

(** X19 on the two rows of the end-to-end example in the other order, with
    the labels 0 then 1. *)
Lemma predict_returns_label_when_labels_in_order_witness :
  NaiveBayesModel.trained_by [[0; 1; 1]; [1; 1; 0]]%R [0; 1]%Z 1%R
    (fst (NaiveBayesModel.fit NaiveBayesModel.__init__
            [[0; 1; 1]; [1; 1; 0]]%R [0; 1]%Z 1%R)) /\
  length [1; 1; 0]%R = NaiveBayesModel.shape1 [[0; 1; 1]; [1; 1; 0]]%R /\
  NaiveBayesModel.first_occurrences [0; 1]%Z = map Z.of_nat (seq 0 2) /\
  exists z prior,
    NaiveBayesModel.predict Tensor.exact
      (fst (NaiveBayesModel.fit NaiveBayesModel.__init__
              [[0; 1; 1]; [1; 1; 0]]%R [0; 1]%Z 1%R)) [1; 1; 0]%R = Ok z /\
    nth_error (NaiveBayesModel.estimate_class_priors [0; 1]%Z) (Z.to_nat z)
    = Some (z, prior).
Proof.
  assert (Ht : NaiveBayesModel.trained_by [[0; 1; 1]; [1; 1; 0]]%R
                 [0; 1]%Z 1%R
                 (fst (NaiveBayesModel.fit NaiveBayesModel.__init__
                         [[0; 1; 1]; [1; 1; 0]]%R [0; 1]%Z 1%R))).
  { split; [discriminate |]. split; [reflexivity |].
    split; [repeat constructor |].
    exists NaiveBayesModel.__init__. reflexivity. }
  assert (Hl : length [1; 1; 0]%R
               = NaiveBayesModel.shape1 [[0; 1; 1]; [1; 1; 0]]%R)
    by reflexivity.
  assert (Ho : NaiveBayesModel.first_occurrences [0; 1]%Z
               = map Z.of_nat (seq 0 2)) by reflexivity.
  repeat (split; [assumption |]).
  exact (predict_returns_label_when_labels_in_order Tensor.exact _ _ _ _ _
           2%nat Ht Hl Ho).
Defined.

Section CollapseFacts.

Import Tensor NaiveBayesModel.
Open Scope R_scope.

Lemma xadd_NaN_r (x : xreal) : xadd x NaN = NaN.
Proof. now destruct x. Qed.

Lemma xsum_NaN (t : list xreal) : In NaN t -> xsum t = NaN.
Proof.
  induction t as [| x t IH]; intros Hin; [destruct Hin |]. simpl.
  destruct Hin as [-> | Hin]; [reflexivity |].
  rewrite IH by assumption. apply xadd_NaN_r.
Qed.

Lemma xgtb_NaN_top (y : xreal) : xgtb NaN y = false -> y = NaN.
Proof. destruct y; simpl; congruence. Qed.

(** The first [NaN] wins [argmax]. *)
Lemma argmax_NaN (t : list xreal) :
  In NaN t ->
  exists k, argmax t = Ok k /\ (k < length t)%nat /\ nth k t NaN = NaN.
Proof.
  intros Hin.
  destruct (argmax_spec t) as [k (Hk & Hlt & Hmax & _)].
  { intros ->. destruct Hin. }
  exists k. split; [assumption |]. split; [assumption |].
  destruct (In_nth t NaN NaN Hin) as [j [Hj Hnth]].
  specialize (Hmax j Hj). rewrite Hnth in Hmax.
  apply xgtb_false_le in Hmax. now apply xgtb_NaN_top.
Qed.

(** One [NaN] among the entries turns the whole softmax into [NaN]. *)
Lemma softmax_NaN (t : list xreal) :
  In NaN t -> softmax t = map (fun _ => NaN) t.
Proof.
  intros Hin. unfold softmax, tmax.
  destruct (argmax_NaN t Hin) as [k (Hk & _ & Hnth)].
  rewrite Hk, Hnth. rewrite map_map. apply map_ext. intros x.
  unfold xsub. simpl. now rewrite xadd_NaN_r.
Qed.

Lemma Forall2_In_l (A B : Type) (R : A -> B -> Prop) (l : list A)
  (l' : list B) (a : A) :
  Forall2 R l l' -> In a l -> exists b, In b l' /\ R a b.
Proof.
  induction 1 as [| x y l l' Hxy _ IH]; intros Hin; [destruct Hin |].
  destruct Hin as [<- | Hin].
  - exists y. split; [now left | assumption].
  - destruct (IH Hin) as [b [Hb HR]]. exists b. split; [now right | exact HR].
Qed.

(** Without smoothing, a word that a class never saw has conditional
    probability 0, and a feature vector with a 0 at that word makes the
    log-posterior of the class [NaN]. *)
Lemma unsmoothed_item (features : list (list R)) (labels : list Z)
  (feature : list R) (c : Z) (prior : R) (i : nat) :
  In c labels ->
  (i < shape1 features)%nat ->
  word_count c i features labels = 0 ->
  class_total c (shape1 features) features labels <> 0 ->
  length feature = shape1 features ->
  nth i feature 0 = 0 ->
  class_log_posterior Tensor.exact
    (map (fun c => (c, class_vector features labels 0 c)) (unique labels))
    feature (c, prior) = Ok NaN.
Proof.
  intros Hc Hi Hwc Htot Hlen Hzero.
  unfold class_log_posterior. simpl. rewrite trained_dict_get.
  destruct (in_dec Z.eq_dec c labels) as [_ |]; [| contradiction].
  rewrite tmul_same_length
    by (now rewrite !length_map, class_vector_length).
  cbn [bind]. rewrite xsum_NaN; [now rewrite xadd_NaN_r |].
  set (vec := class_vector features labels 0 c).
  assert (Hvec : nth i (map xlog vec) (xlog NaN) = NInf).
  { rewrite map_nth. unfold vec, class_vector.
    rewrite nth_map_seq by assumption. rewrite Hwc.
    rewrite xdiv_fin by lra. simpl.
    destruct (Rlt_dec 0 ((0 + 0) / (class_total c (shape1 features)
                                      features labels
                                    + 0 * INR (shape1 features))))
      as [Hpos | _].
    - exfalso. unfold Rdiv in Hpos. lra.
    - destruct (Req_dec_T ((0 + 0) / (class_total c (shape1 features)
                                        features labels
                                      + 0 * INR (shape1 features))) 0)
        as [_ | Hn]; [reflexivity |].
      exfalso. apply Hn. unfold Rdiv. lra. }
  assert (Hfeat : nth i (map Fin feature) (Fin 0) = Fin 0).
  { rewrite (map_nth Fin). now rewrite Hzero. }
  assert (Hpair : In (Fin 0, NInf)
                     (combine (map Fin feature) (map xlog vec))).
  { rewrite <- Hfeat, <- Hvec, <- combine_nth
      by (unfold vec; now rewrite !length_map, class_vector_length).
    apply nth_In. rewrite length_combine, !length_map.
    unfold vec. rewrite class_vector_length. lia. }
  apply in_map_iff. exists (Fin 0, NInf). split; [| assumption].
  simpl. unfold sign_of. decide_reals. reflexivity.
Qed.

End CollapseFacts.

(** X20. Training with [delta = 0] lets probabilities collapse: when a class
    that has words never saw word [i], and the feature vector holds 0 at
    [i], the log-posterior of that class is [NaN]; [predict] returns a
    position whose log-posterior is [NaN], and [predict_proba] returns
    [NaN] for every class.  The kernels are those over the exact reals; the
    values met, 0, minus infinity and [NaN], are special values on which
    rounding has no hold. *)
Theorem unsmoothed_model_collapses
  (features : list (list R)) (labels : list Z)
  (model : NaiveBayesModel.NaiveBayes) (feature : list R) (c : Z) (i : nat) :
  NaiveBayesModel.trained_by features labels 0%R model ->
  In c labels ->
  (i < NaiveBayesModel.shape1 features)%nat ->
  NaiveBayesModel.word_count c i features labels = 0%R ->
  NaiveBayesModel.class_total c (NaiveBayesModel.shape1 features)
                              features labels <> 0%R ->
  length feature = NaiveBayesModel.shape1 features ->
  nth i feature 0%R = 0%R ->
  exists lp k,
    NaiveBayesModel.estimate_class_posteriors Tensor.exact model feature
    = Ok lp /\
    In Tensor.NaN lp /\
    NaiveBayesModel.predict Tensor.exact model feature = Ok (Z.of_nat k) /\
    (k < length lp)%nat /\ nth k lp Tensor.NaN = Tensor.NaN /\
    NaiveBayesModel.predict_proba Tensor.exact model feature
    = Ok (map (fun _ => Tensor.NaN) lp).
Proof.
  intros Ht Hc Hi Hwc Htot Hlen Hzero.
  destruct (trained_by_vectors _ _ _ _ Ht) as (Hne & Hp & Hcps).
  destruct (trained_posteriors Tensor.exact features labels 0%R model
              feature (fun _ => True) Ht Hlen)
    as [lp (Hlp & _ & _ & Hguard)]; [trivial |].
  pose proof Hlp as Hall.
  rewrite (posteriors_unfold Tensor.exact model _ _ feature Hp Hcps)
    in Hall.
  apply mapM_Forall2 in Hall.
  assert (Hin : exists prior,
             In (c, prior) (NaiveBayesModel.estimate_class_priors labels)).
  { apply (proj2 (estimate_class_priors_keys labels c)) in Hc.
    apply in_map_iff in Hc as [[c' prior] [E Hin]]. simpl in E. subst c'.
    now exists prior. }
  destruct Hin as [prior Hin].
  destruct (Forall2_In_l _ _ _ _ _ _ Hall Hin) as [b [Hb Hitem]].
  rewrite (unsmoothed_item features labels feature c prior i
             Hc Hi Hwc Htot Hlen Hzero) in Hitem.
  injection Hitem as <-.
  destruct (argmax_NaN lp Hb) as [k (Hk & Hlt & Hnth)].
  exists lp, k. split; [assumption |]. split; [assumption |].
  unfold NaiveBayesModel.predict, NaiveBayesModel.predict_proba.
  rewrite Hguard, Hlp. simpl. rewrite Hk. simpl.
  repeat split; try assumption. now rewrite softmax_NaN.
Qed.

(** X20 on the end-to-end example trained without smoothing: class 1 never
    saw the word "bad", which "good movie" does not contain. *)
Lemma unsmoothed_model_collapses_witness :
  NaiveBayesModel.trained_by EndToEnd.features EndToEnd.labels 0%R
                             EndToEnd.unsmoothed_model /\
  In 1%Z EndToEnd.labels /\
  (2 < NaiveBayesModel.shape1 EndToEnd.features)%nat /\
  NaiveBayesModel.word_count 1%Z 2 EndToEnd.features EndToEnd.labels = 0%R /\
  NaiveBayesModel.class_total 1%Z (NaiveBayesModel.shape1 EndToEnd.features)
                              EndToEnd.features EndToEnd.labels <> 0%R /\
  length [1; 1; 0]%R = NaiveBayesModel.shape1 EndToEnd.features /\
  nth 2 [1; 1; 0]%R 0%R = 0%R /\
  exists lp : list Tensor.xreal,
    NaiveBayesModel.predict_proba Tensor.exact EndToEnd.unsmoothed_model
      [1; 1; 0]%R
    = Ok (map (fun _ => Tensor.NaN) lp).
Proof.
  assert (Ht : NaiveBayesModel.trained_by EndToEnd.features EndToEnd.labels
                 0%R EndToEnd.unsmoothed_model)
    by (apply example_trained, example_fit_unsmoothed).
  assert (Hc : In 1%Z EndToEnd.labels) by (now left).
  assert (Hi : (2 < NaiveBayesModel.shape1 EndToEnd.features)%nat)
    by (simpl; lia).
  assert (Hwc : NaiveBayesModel.word_count 1%Z 2 EndToEnd.features
                  EndToEnd.labels = 0%R) by (simpl; lra).
  assert (Htot : NaiveBayesModel.class_total 1%Z
                   (NaiveBayesModel.shape1 EndToEnd.features)
                   EndToEnd.features EndToEnd.labels <> 0%R)
    by (unfold NaiveBayesModel.class_total; simpl; lra).
  assert (Hl : length [1; 1; 0]%R
               = NaiveBayesModel.shape1 EndToEnd.features) by reflexivity.
  assert (Hz : nth 2 [1; 1; 0]%R 0%R = 0%R) by reflexivity.
  repeat (split; [assumption |]).
  destruct (unsmoothed_model_collapses _ _ _ _ _ _ Ht Hc Hi Hwc Htot Hl Hz)
    as [lp [k (_ & _ & _ & _ & _ & H)]].
  now exists lp.
Defined.

(** * Properties of the reader *)

Section ReaderFacts.

Import DataProcessing Reader.

Variable tokenize : string -> list string.
Variable strip : string -> string.
Variable int : string -> option Z.

Lemma split_tab_no_tab (s : string) :
  has_tab s = false -> split_tab s = [s].
Proof.
  induction s as [| ch rest IH]; simpl; [reflexivity |].
  destruct (Ascii.eqb ch tab); simpl; [discriminate |].
  intros H. now rewrite (IH H).
Qed.

Lemma split_tab_with_tab (s : string) :
  has_tab s = true ->
  exists part next parts, split_tab s = part :: next :: parts.
Proof.
  induction s as [| ch rest IH]; simpl; [discriminate |].
  destruct (Ascii.eqb ch tab); simpl.
  - intros _. destruct (has_tab rest) eqn:E.
    + destruct (IH eq_refl) as (p & n & ps & ->). eauto.
    + rewrite (split_tab_no_tab rest E). eauto.
  - intros H. destruct (IH H) as (p & n & ps & ->). eauto.
Qed.

Lemma split_tab_short (s : string) :
  Nat.ltb (length (split_tab s)) 2 = negb (has_tab s).
Proof.
  destruct (has_tab s) eqn:E.
  - destruct (split_tab_with_tab s E) as (p & n & ps & ->). reflexivity.
  - now rewrite (split_tab_no_tab s E).
Qed.

Lemma split_tab_first (s : string) :
  hd EmptyString (split_tab s) = before_first_tab s.
Proof.
  induction s as [| ch rest IH]; simpl; [reflexivity |].
  destruct (Ascii.eqb ch tab); simpl; [reflexivity |].
  destruct (split_tab rest) as [| part parts]; simpl in *;
    now rewrite <- IH.
Qed.

Lemma split_tab_last (s : string) :
  last (split_tab s) EmptyString = after_last_tab s.
Proof.
  induction s as [| ch rest IH]; [reflexivity |].
  cbn [split_tab after_last_tab].
  destruct (has_tab rest) eqn:E.
  - destruct (split_tab_with_tab rest E) as (p & n & ps & Hs).
    rewrite Hs in IH |- *. rewrite <- IH.
    destruct (Ascii.eqb ch tab); reflexivity.
  - rewrite (split_tab_no_tab rest E).
    destruct (Ascii.eqb ch tab); reflexivity.
Qed.

(** The reading loop keeps the lines with a tab and parses each of them. *)
Lemma read_lines_kept (lines : list string) :
  forall examples,
    read_lines tokenize strip int lines examples =
    fmap (app examples)
         (mapM (parse_line tokenize strip int)
               (filter (fun line => has_tab (strip line)) lines)).
Proof.
  induction lines as [| line lines IH]; intros examples.
  - cbn. now rewrite app_nil_r.
  - cbn [read_lines filter].
    rewrite split_tab_short, split_tab_first, split_tab_last.
    destruct (has_tab (strip line)); cbn [negb]; [| apply IH].
    cbn [mapM]. unfold parse_line at 1.
    destruct (int (after_last_tab (strip line))) as [z |]; [| reflexivity].
    rewrite IH. cbn [bind].
    destruct (mapM (parse_line tokenize strip int)
                   (filter (fun l => has_tab (strip l)) lines))
      as [bs | e]; cbn [fmap bind]; [| reflexivity].
    now rewrite <- app_assoc.
Qed.

Lemma fmap_app_nil (A : Type) (r : result (list A)) : fmap (app []) r = r.
Proof. now destruct r. Qed.

End ReaderFacts.

(** X21. [read_sentiment_examples] keeps exactly the lines that, once
    stripped, hold a tab, in file order, and makes of each the example whose
    words are the tokens of the text before its first tab and whose label is
    the integer read from the text after its last tab; the fields in between
    play no part. *)
Theorem read_sentiment_examples_fields
  (tokenize : string -> list string) (strip : string -> string)
  (int : string -> option Z) (lines : list string) :
  Reader.read_sentiment_examples tokenize strip int lines =
  mapM (Reader.parse_line tokenize strip int)
       (filter (fun line => Reader.has_tab (strip line)) lines).
Proof.
  unfold Reader.read_sentiment_examples.
  rewrite read_lines_kept. apply fmap_app_nil.
Qed.

(** X22. One kept line whose last field is not an integer makes the whole
    call raise [ValueError]: no example is returned, not even those of the
    lines before it. *)
Theorem read_sentiment_examples_bad_label
  (tokenize : string -> list string) (strip : string -> string)
  (int : string -> option Z) (lines : list string) (line : string) :
  In line lines ->
  Reader.has_tab (strip line) = true ->
  int (Reader.after_last_tab (strip line)) = None ->
  Reader.read_sentiment_examples tokenize strip int lines = Err ValueError.
Proof.
  intros Hin Htab Hint. unfold Reader.read_sentiment_examples.
  rewrite read_lines_kept, fmap_app_nil.
  apply mapM_raises.
  - intros l _. unfold Reader.parse_line.
    destruct (int (Reader.after_last_tab (strip l))); eauto.
  - exists line. split.
    + apply filter_In. auto.
    + unfold Reader.parse_line. now rewrite Hint.
Qed.

(** X22 with an identity [strip] and an [int] that knows only "1". *)
Lemma read_sentiment_examples_bad_label_witness :
  In EndToEnd.bad_line EndToEnd.file_lines /\
  Reader.has_tab EndToEnd.bad_line = true /\
  Reader.read_sentiment_examples
    (fun s => [s]) (fun s => s)
    (fun s => if String.eqb s "1" then Some 1%Z else None)
    EndToEnd.file_lines = Err ValueError.
Proof.
  assert (H1 : In EndToEnd.bad_line EndToEnd.file_lines)
    by (right; now left).
  assert (H2 : Reader.has_tab EndToEnd.bad_line = true) by reflexivity.
  split; [exact H1 |]. split; [exact H2 |].
  exact (read_sentiment_examples_bad_label
           (fun s => [s]) (fun s => s)
           (fun s => if String.eqb s "1" then Some 1%Z else None)
           _ _ H1 H2 eq_refl).
Defined.

(** * Properties across the components *)

Section PipelineFacts.

Import DataProcessing Tensor NaiveBayesModel.
Open Scope R_scope.

Lemma filter_known (vocab : Vocab) (text : list string) :
  (forall w, In w text -> In w (map fst vocab)) ->
  filter (fun w => mem w vocab) text = text.
Proof.
  induction text as [| w text IH]; intros H; simpl; [reflexivity |].
  rewrite (proj2 (mem_true_iff w vocab) (H w (or_introl eq_refl))).
  rewrite IH; [reflexivity |]. intros x Hx. apply H. now right.
Qed.

Lemma mapM_error (A B : Type) (f : A -> result B) (P : error -> Prop)
  (l : list A) (e : error) :
  (forall a e', f a = Err e' -> P e') -> mapM f l = Err e -> P e.
Proof.
  intros Hf. induction l as [| a l IH]; simpl; [discriminate |].
  destruct (f a) as [b | e'] eqn:Ha; simpl.
  - destruct (mapM f l) as [bs | e'']; simpl; [discriminate |].
    intros H. injection H as <-. now apply IH.
  - intros H. injection H as <-. eapply Hf. eassumption.
Qed.

Lemma tmul_error (K : Kernels) (a b : list xreal) (e : error) :
  tmul K a b = Err e -> e = RuntimeError.
Proof.
  unfold tmul. destruct (Nat.eqb (length a) (length b)); [discriminate |].
  destruct a as [| x [| x' a]], b as [| y [| y' b]]; try discriminate;
    intros H; now injection H as <-.
Qed.

Lemma posteriors_error (K : Kernels) (model : NaiveBayes)
  (feature : list R) (e : error) :
  (falsy (class_priors model) || falsy (conditional_probabilities model)
   = false)%bool ->
  estimate_class_posteriors K model feature = Err e ->
  e = KeyError \/ e = RuntimeError.
Proof.
  intros Hg. apply orb_false_iff in Hg as [Hp Hc].
  unfold estimate_class_posteriors.
  destruct (conditional_probabilities model) as [cps |]; [| discriminate].
  destruct (class_priors model) as [priors |]; [| discriminate].
  apply mapM_error with (P := fun e => e = KeyError \/ e = RuntimeError).
  intros [c prior] e'. destruct (dict_get c cps) as [probs |].
  - destruct (tmul K (map Fin feature) (map (torch_log K) probs))
      as [prods | e''] eqn:Hm; simpl; [discriminate |].
    intros H. injection H as <-. right. now apply tmul_error in Hm.
  - intros H. injection H as <-. now left.
Qed.

(** Past the guard of [predict] the log-posterior vector is not empty. *)
Lemma posteriors_nonempty (K : Kernels) (model : NaiveBayes)
  (feature : list R) (lp : list xreal) :
  falsy (class_priors model) = false ->
  estimate_class_posteriors K model feature = Ok lp -> lp <> [].
Proof.
  intros Hp. unfold estimate_class_posteriors.
  destruct (conditional_probabilities model) as [cps |]; [| discriminate].
  destruct (class_priors model) as [[| item priors] |]; try discriminate.
  simpl.
  match goal with
  | |- bind ?r _ = _ -> _ => destruct r as [v | e]; simpl; [| discriminate]
  end.
  match goal with
  | |- bind ?r _ = _ -> _ => destruct r as [vs | e]; simpl; [| discriminate]
  end.
  intros H. injection H as <-. discriminate.
Qed.







End PipelineFacts.

(** X23. Vectorising a training example against the dictionary built from
    the training examples raises nothing and gives one entry per word of the
    dictionary; for an example of at most [2 ^ 24] tokens no token is lost:
    the entries of the count vector add up to the number of tokens of the
    example. *)
Theorem bag_of_words_of_training_example
  (examples : list DataProcessing.SentimentExample)
  (example : DataProcessing.SentimentExample) :
  In example examples ->
  exists bow,
    DataProcessing.bag_of_words (DataProcessing._words example)
      (DataProcessing.build_vocab examples) false = Ok bow /\
    length bow = length (DataProcessing.build_vocab examples) /\
    ((N.of_nat (length (DataProcessing._words example)) <= 16777216)%N ->
     list_sum bow = length (DataProcessing._words example)).
Proof.
  intros Hin.
  pose proof (build_vocab_vocabulary examples) as Hv.
  unfold DataProcessing.bag_of_words.
  destruct (bow_loop_vocabulary _ false Hv (DataProcessing._words example)
              (DataProcessing.zeros
                 (length (DataProcessing.build_vocab examples))))
    as [bow [Hrun _]]; [apply repeat_length | apply zeros_bounded |].
  exists bow. split; [assumption |]. split.
  - apply bow_loop_length in Hrun. rewrite Hrun. apply repeat_length.
  - intros Hn. apply bow_loop_total in Hrun.
    + rewrite Hrun, list_sum_zeros. simpl.
      f_equal. apply filter_known. intros w Hw.
      apply build_vocab_keys. unfold DataProcessing.all_tokens.
      apply in_concat. exists (DataProcessing._words example).
      split; [now apply in_map | assumption].
    + intros k. rewrite nth_repeat_zero. exact Hn.
Qed.

(** X23 on the first example of the end-to-end example. *)
Lemma bag_of_words_of_training_example_witness :
  In (DataProcessing.mkExample ["good"; "movie"]%string 1%Z)
     EndToEnd.examples /\
  exists bow,
    DataProcessing.bag_of_words ["good"; "movie"]%string
      (DataProcessing.build_vocab EndToEnd.examples) false = Ok bow /\
    list_sum bow = 2%nat.
Proof.
  assert (H : In (DataProcessing.mkExample ["good"; "movie"]%string 1%Z)
                 EndToEnd.examples) by (now left).
  split; [exact H |].
  destruct (bag_of_words_of_training_example _ _ H)
    as [bow (H1 & _ & H2)].
  exists bow. split; [assumption |]. apply H2. simpl. lia.
Defined.

(** X24. Whatever the state of the object, the feature vector and the
    kernels, [predict] and [predict_proba] raise nothing but the not-trained
    exception, a [KeyError] or a [RuntimeError]: the [ValueError] of
    [estimate_class_posteriors] cannot come out of them, and [torch.argmax]
    never meets an empty tensor. *)
Theorem prediction_exceptions
  (K : Tensor.Kernels) (model : NaiveBayesModel.NaiveBayes)
  (feature : list R) (e : error) :
  (NaiveBayesModel.predict K model feature = Err e ->
   e = NotTrained \/ e = KeyError \/ e = RuntimeError) /\
  (NaiveBayesModel.predict_proba K model feature = Err e ->
   e = NotTrained \/ e = KeyError \/ e = RuntimeError).
Proof.
  unfold NaiveBayesModel.predict, NaiveBayesModel.predict_proba.
  destruct (NaiveBayesModel.falsy (NaiveBayesModel.class_priors model)
            || NaiveBayesModel.falsy
                 (NaiveBayesModel.conditional_probabilities model))%bool
    eqn:Hg.
  - split; intros H; injection H as <-; now left.
  - destruct (NaiveBayesModel.estimate_class_posteriors K model feature)
      as [lp | e'] eqn:He; simpl.
    + split; [| discriminate].
      apply posteriors_nonempty in He;
        [| now apply orb_false_iff in Hg as [Hg _]].
      destruct lp as [| x lp]; [contradiction |]. discriminate.
    + split; intros H; injection H as <-; right;
        now apply (posteriors_error K model feature).
Qed.


